(** * WHO GHO ingestion pipeline: a shallow embedding of [scripts/ingest_who.py]

    The development models the paginated fetch loop ([iter_pages]), the raw
    JSONL sink ([write_jsonl]) and the dual file/warehouse sink
    ([write_jsonl_and_snowflake]) as programs of a small reader/state/error
    monad.  Everything outside the script (the HTTP API, the file system, the
    warehouse connection, the process environment) is an [environment] of
    oracles; every interaction with it is recorded in a trace, so that the
    properties of the script read as properties of its traces. *)

From stdpp Require Import base gmap list strings pretty.
From Stdlib Require Import ZArith Lia.

Local Open Scope Z_scope.
Local Open Scope string_scope.
Local Open Scope list_scope.

(** ** Data model *)

(** Values decoded by [resp.json()].  A float is carried as its IEEE-754
    bit pattern: the pipeline never computes on it. *)
#[local] Unset Elimination Schemes.
Inductive json : Type :=
| JNull
| JBool (b : bool)
| JInt (n : Z)
| JFloat (bits : Z)
| JStr (s : string)
| JArr (items : list json)
| JObj (fields : gmap string json).
#[local] Set Elimination Schemes.

(** A record is a [Dict[str, Any]]. *)
Abbreviation record := (gmap string json).

(** [row.get(key)]: the value under exactly [key], [None] (here [JNull])
    when the key is absent. *)
Definition dict_get (row : record) (key : string) : json :=
  match row !! key with
  | Some v => v
  | None => JNull
  end.

Definition GHO_BASE : string := "https://ghoapi.azureedge.net/api".

(** The URL built by [build_url], kept structured: the endpoint and the
    query parameters before [urlencode] renders them ([str] of an integer
    is injective, so [$top] and [$skip] are kept as integers). *)
Record url := Url {
  url_endpoint : string;
  url_top : Z;
  url_skip : Z;
  url_select : option string;
  url_filter : option string;
}.

(** [if select:] - an absent or empty string adds no parameter. *)
Definition if_str (o : option string) : option string :=
  match o with
  | Some s => if decide (s = "") then None else Some s
  | None => None
  end.

Definition build_url (indicator : string) (skip top : Z)
    (select filters : option string) : url :=
  {| url_endpoint := GHO_BASE +:+ "/" +:+ indicator;
     url_top := top;
     url_skip := skip;
     url_select := if_str select;
     url_filter := if_str filters |}.

(** ** The outside world *)

Inductive exn : Type :=
| RuntimeError (msg : string)
| RequestException (msg : string)
| JSONDecodeError
| OSError (msg : string)
| DatabaseError (msg : string).

(** What [resp.json()] gives: an exception on a body that is not JSON,
    otherwise the payload object, of which the script reads only the
    ["value"] array ([None] when the key is absent). *)
Inductive body : Type :=
| NotJson
| Payload (value : option (list record)).

Record response := Response {
  status_code : Z;
  text : string;
  json_body : body;
}.

(** One parameter tuple of the multi-row insert:
    [(indicator, ingest_date, row.get("Id"), payload)]. *)
Abbreviation insert_row := (string * string * json * string)%type.

(** Calls that leave the script, HTTP apart. *)
Inductive call : Type :=
| Connect (config : gmap string string)
| Cursor
| Execute (sql : string)
| Executemany (sql : string) (batch : list insert_row)
| Commit
| Close
| Open (path : string)
| WriteFile (path : string) (s : string)
| CloseFile (path : string)
| Sleep (seconds : Z).

(** The trace of a run: each call with the exception it raised, if any;
    each HTTP exchange; each item a [for] loop pulled from its row stream
    ([None] is the end of the stream). *)
Inductive event : Type :=
| Did (c : call) (err : option exn)
| Got (u : url) (timeout_s : Z) (res : exn + response)
| Pulled (item : option record).

(** The oracles: process environment, [json.dumps(_, ensure_ascii=False)],
    the remote API and the faults of every other call, the last two as
    functions of the history of the run. *)
Record environment := Env {
  getenv : string -> option string;
  json_dumps : record -> string;
  session_get : list event -> url -> Z -> exn + response;
  fault : list event -> call -> option exn;
}.

(** The files are read as they stand once the handle is closed, so a
    buffered write counts from the [write] call on. *)
Record world := World {
  trace : list event;
  files : gmap string string;
}.

Definition effect (c : call) (fs : gmap string string) : gmap string string :=
  match c with
  | Open path => <[path := ""]> fs
  | WriteFile path s => alter (fun old => old +:+ s) path fs
  | _ => fs
  end.

(** ** The monad of the script: reader, state, exceptions, fuel *)

Inductive result (A : Type) : Type :=
| Ok (a : A)
| Raise (e : exn)
| OutOfFuel.
Arguments Ok {A} a.
Arguments Raise {A} e.
Arguments OutOfFuel {A}.

Definition M (A : Type) : Type := environment -> world -> result A * world.

Definition ret {A} (a : A) : M A := fun _ w => (Ok a, w).
Definition raise {A} (e : exn) : M A := fun _ w => (Raise e, w).
Definition out_of_fuel {A} : M A := fun _ w => (OutOfFuel, w).

Definition bind {A B} (m : M A) (k : A -> M B) : M B := fun E w =>
  match m E w with
  | (Ok a, w') => k a E w'
  | (Raise e, w') => (Raise e, w')
  | (OutOfFuel, w') => (OutOfFuel, w')
  end.

Notation "'let*' x ':=' m 'in' k" := (bind m (fun x => k))
  (at level 10, x pattern, m at level 100, k at level 200).

Definition log (ev : event) : M unit := fun _ w =>
  (Ok tt, World (trace w ++ [ev]) (files w)).

Definition perform (c : call) : M unit := fun E w =>
  match fault E (trace w) c with
  | Some e => (Raise e, World (trace w ++ [Did c (Some e)]) (files w))
  | None => (Ok tt, World (trace w ++ [Did c None]) (effect c (files w)))
  end.

(** [session.get(url, timeout=timeout_s)] *)
Definition http_get (u : url) (timeout_s : Z) : M response := fun E w =>
  let res := session_get E (trace w) u timeout_s in
  let w' := World (trace w ++ [Got u timeout_s res]) (files w) in
  match res with
  | inl e => (Raise e, w')
  | inr resp => (Ok resp, w')
  end.

Definition dumps (r : record) : M string := fun E w => (Ok (json_dumps E r), w).

(** [try: body finally: final]; a run that never leaves [body] never reaches
    [final]. *)
Definition try_finally {A} (body : M A) (final : M unit) : M A := fun E w =>
  match body E w with
  | (OutOfFuel, w') => (OutOfFuel, w')
  | (r, w') =>
      match final E w' with
      | (Ok _, w'') => (r, w'')
      | (Raise e, w'') => (Raise e, w'')
      | (OutOfFuel, w'') => (OutOfFuel, w'')
      end
  end.

(** [with path.open("w", encoding="utf-8") as f: body] *)
Definition with_open {A} (path : string) (body : M A) : M A :=
  let* _ := perform (Open path) in
  try_finally body (perform (CloseFile path)).

(** Row streams ([Iterable[Dict[str, Any]]]). *)
Class Iterator (I : Type) := next : I -> M (option record * I).

#[export] Instance list_iterator : Iterator (list record) := fun l =>
  match l with
  | [] => ret (None, [])
  | r :: l' => ret (Some r, l')
  end.

(** One turn of [for row in rows]. *)
Definition pull {I} `{Iterator I} (rows : I) : M (option record * I) :=
  let* (item, rows') := next rows in
  let* _ := log (Pulled item) in
  ret (item, rows').

(** [list(rows)]: drain a row stream.  [fuel] bounds the number of turns
    of the loop; a run that needs more ends in [OutOfFuel]. *)
Fixpoint to_list_loop {I} `{Iterator I} (fuel : nat) (rows : I)
    (acc : list record) : M (list record) :=
  match fuel with
  | O => out_of_fuel
  | S fuel' =>
      let* (item, rows') := pull rows in
      match item with
      | None => ret acc
      | Some r => to_list_loop fuel' rows' (acc ++ [r])
      end
  end.

Definition to_list {I} `{Iterator I} (fuel : nat) (rows : I) : M (list record) :=
  to_list_loop fuel rows [].

(** ** The script *)

Definition nl : string := String (Ascii.ascii_of_nat 10) EmptyString.

Definition len {A} (l : list A) : Z := Z.of_nat (length l).

(** The arguments of [iter_pages].  [sleep_s] is a float in the script,
    which only tests [sleep_s > 0] and hands it to [time.sleep]; it is kept
    as a whole number of some unit of time. *)
Record iter_pages_args := Args {
  indicator : string;
  page_size : Z;
  max_rows : option Z;
  select : option string;
  filters : option string;
  sleep_s : Z;
  timeout_s : Z;
}.

(** Where the generator [iter_pages] is suspended: not yet started; at the
    [yield] inside [for r in rows], with [rest] still to be yielded and
    [fetched], [skip] not yet advanced past [rows]; or finished. *)
Inductive frame : Type :=
| Fresh
| InPage (fetched skip : Z) (rows rest : list record)
| Finished.

Record generator := Generator {
  gen_args : iter_pages_args;
  gen_frame : frame;
}.

Definition iter_pages (a : iter_pages_args) : generator := Generator a Fresh.

(** The [$top] of the next request; [None] when the cap is reached
    ([remaining <= 0: return]). *)
Definition next_top (a : iter_pages_args) (fetched : Z) : option Z :=
  let top := page_size a in
  match max_rows a with
  | None => Some top
  | Some cap =>
      let remaining := cap - fetched in
      if decide (remaining <= 0) then None else Some (Z.min top remaining)
  end.

(** [RuntimeError(f"HTTP {resp.status_code} from WHO API:\n{resp.text[:500]}")] *)
Definition http_error (resp : response) : exn :=
  RuntimeError ("HTTP " +:+ pretty (status_code resp) +:+ " from WHO API:"
                +:+ nl +:+ String.substring 0 500 (text resp)).

(** [resp.json()] and [payload.get("value", [])] *)
Definition resp_json (resp : response) : M (option (list record)) :=
  match json_body resp with
  | NotJson => raise JSONDecodeError
  | Payload value => ret value
  end.

(** The body of [while True] from its head to the first [yield]. *)
Definition iter_pages_body (a : iter_pages_args) (fetched skip : Z)
    : M (option record * frame) :=
  match next_top a fetched with
  | None => ret (None, Finished)
  | Some top =>
      let u := build_url (indicator a) skip top (select a) (filters a) in
      let* resp := http_get u (timeout_s a) in
      if decide (status_code resp ≠ 200) then raise (http_error resp)
      else
        let* value := resp_json resp in
        let rows := default [] value in
        match rows with
        | [] => ret (None, Finished)
        | r :: rest => ret (Some r, InPage fetched skip rows rest)
        end
  end.

Definition iter_pages_resume (a : iter_pages_args) (fr : frame)
    : M (option record * frame) :=
  match fr with
  | Fresh => iter_pages_body a 0 0
  | InPage fetched skip rows (r :: rest) =>
      ret (Some r, InPage fetched skip rows rest)
  | InPage fetched skip rows [] =>
      let fetched := fetched + len rows in
      let skip := skip + len rows in
      let* _ := (if decide (sleep_s a > 0) then perform (Sleep (sleep_s a))
                 else ret tt) in
      iter_pages_body a fetched skip
  | Finished => ret (None, Finished)
  end.

#[export] Instance generator_iterator : Iterator generator := fun g =>
  let* (item, fr) := iter_pages_resume (gen_args g) (gen_frame g) in
  ret (item, Generator (gen_args g) fr).

Fixpoint write_jsonl_loop {I} `{Iterator I} (fuel : nat) (path : string)
    (rows : I) (n : Z) : M Z :=
  match fuel with
  | O => out_of_fuel
  | S fuel' =>
      let* (item, rows') := pull rows in
      match item with
      | None => ret n
      | Some r =>
          let* s := dumps r in
          let* _ := perform (WriteFile path s) in
          let* _ := perform (WriteFile path nl) in
          write_jsonl_loop fuel' path rows' (n + 1)
      end
  end.

Definition write_jsonl {I} `{Iterator I} (fuel : nat) (path : string)
    (rows : I) : M Z :=
  with_open path (write_jsonl_loop fuel path rows 0).

Definition env_map : list (string * string) :=
  [("SNOWFLAKE_ACCOUNT", "account"); ("SNOWFLAKE_USER", "user");
   ("SNOWFLAKE_PASSWORD", "password"); ("SNOWFLAKE_WAREHOUSE", "warehouse");
   ("SNOWFLAKE_DATABASE", "database"); ("SNOWFLAKE_SCHEMA", "schema")].

Definition optional_env_map : list (string * string) :=
  [("SNOWFLAKE_ROLE", "role")].

Definition read_required (E : environment)
    (acc : gmap string string * list string) (item : string * string)
    : gmap string string * list string :=
  let '(config, missing) := acc in
  let '(env_key, cfg_key) := item in
  match if_str (getenv E env_key) with
  | None => (config, missing ++ [env_key])
  | Some value => (<[cfg_key := value]> config, missing)
  end.

Definition read_optional (E : environment) (config : gmap string string)
    (item : string * string) : gmap string string :=
  let '(env_key, cfg_key) := item in
  match if_str (getenv E env_key) with
  | None => config
  | Some value => <[cfg_key := value]> config
  end.

Definition get_snowflake_config : M (gmap string string) := fun E =>
  let '(config, missing) := foldl (read_required E) (∅, []) env_map in
  let config := foldl (read_optional E) config optional_env_map in
  match missing with
  | [] => ret config E
  | _ => raise (RuntimeError ("Missing Snowflake env vars: "
                   +:+ String.concat ", " missing)) E
  end.

Definition connect_to_snowflake (config : gmap string string) : M unit :=
  perform (Connect config).

Definition create_table_sql (table_name : string) : string :=
  nl +:+ "        CREATE TABLE IF NOT EXISTS " +:+ table_name +:+ " (" +:+
  nl +:+ "            indicator STRING," +:+
  nl +:+ "            ingest_date DATE," +:+
  nl +:+ "            id STRING," +:+
  nl +:+ "            data VARIANT" +:+
  nl +:+ "        )" +:+
  nl +:+ "        ".

Definition ensure_snowflake_table (table_name : string) : M unit :=
  perform (Execute (create_table_sql table_name)).

Definition insert_sql (table_name : string) : string :=
  "INSERT INTO " +:+ table_name +:+ " (indicator, ingest_date, id, data) "
  +:+ "SELECT %s, %s, %s, parse_json(%s)".

Fixpoint write_and_insert_loop {I} `{Iterator I} (fuel : nat)
    (path : string) (rows : I) (table_name indicator ingest_date : string)
    (batch_size : Z) (n : Z) (batch : list insert_row)
    : M (Z * list insert_row) :=
  match fuel with
  | O => out_of_fuel
  | S fuel' =>
      let* (item, rows') := pull rows in
      match item with
      | None => ret (n, batch)
      | Some row =>
          let* payload := dumps row in
          let* _ := perform (WriteFile path payload) in
          let* _ := perform (WriteFile path nl) in
          let batch := batch ++ [(indicator, ingest_date, dict_get row "Id", payload)] in
          let n := n + 1 in
          let* batch :=
            (if decide (len batch >= batch_size) then
               let* _ := perform (Executemany (insert_sql table_name) batch) in
               ret []
             else ret batch) in
          write_and_insert_loop fuel' path rows' table_name indicator
            ingest_date batch_size n batch
      end
  end.

(** The [try] block of [write_jsonl_and_snowflake]. *)
Definition write_jsonl_and_snowflake_try {I} `{Iterator I} (fuel : nat)
    (path : string) (rows : I) (table_name indicator ingest_date : string)
    (batch_size : Z) : M Z :=
  let* _ := perform Cursor in
  let* _ := ensure_snowflake_table table_name in
  let* (n, batch) :=
    with_open path
      (write_and_insert_loop fuel path rows table_name indicator
         ingest_date batch_size 0 []) in
  let* _ := (match batch with
             | [] => ret tt
             | _ => perform (Executemany (insert_sql table_name) batch)
             end) in
  let* _ := perform Commit in
  ret n.

Definition write_jsonl_and_snowflake {I} `{Iterator I} (fuel : nat)
    (path : string) (rows : I) (table_name indicator ingest_date : string)
    (batch_size : Z) : M Z :=
  let* config := get_snowflake_config in
  let* _ := connect_to_snowflake config in
  try_finally
    (write_jsonl_and_snowflake_try fuel path rows table_name indicator
       ingest_date batch_size)
    (perform Close).

(** ** Reading a trace *)

(** The HTTP exchanges of a run, in order. *)
Fixpoint fetch_log (tr : list event) : list (url * (exn + response)) :=
  match tr with
  | [] => []
  | Got u _ res :: tr' => (u, res) :: fetch_log tr'
  | _ :: tr' => fetch_log tr'
  end.

(** The records the consumer pulled from its row stream. *)
Fixpoint yields (tr : list event) : list record :=
  match tr with
  | [] => []
  | Pulled (Some r) :: tr' => r :: yields tr'
  | _ :: tr' => yields tr'
  end.

(** The batches handed to [cursor.executemany], one per call. *)
Fixpoint inserts (tr : list event) : list (list insert_row) :=
  match tr with
  | [] => []
  | Did (Executemany _ batch) _ :: tr' => batch :: inserts tr'
  | _ :: tr' => inserts tr'
  end.

(** The rows a reply delivers to [iter_pages]: the ["value"] array of a
    decodable 200 reply. *)
Definition page_rows (res : exn + response) : list record :=
  match res with
  | inr resp =>
      if decide (status_code resp = 200) then
        match json_body resp with
        | Payload value => default [] value
        | NotJson => []
        end
      else []
  | inl _ => []
  end.

(** Records received over a sequence of exchanges. *)
Definition received (log : list (url * (exn + response))) : Z :=
  foldr (fun x acc => len (page_rows x.2) + acc) 0 log.

(** ** Environments used in the examples *)

Definition no_fault : list event -> call -> option exn := fun _ _ => None.

Definition ok_page (rows : list record) : exn + response :=
  inr (Response 200 "" (Payload (Some rows))).

(** An API over a fixed data set that honours [$skip] and [$top]. *)
Definition page_of (data : list record) (u : url) : list record :=
  take (Z.to_nat (url_top u)) (drop (Z.to_nat (url_skip u)) data).

Definition serve (data : list record) : list event -> url -> Z -> exn + response :=
  fun _ u _ => ok_page (page_of data u).

(** A scripted API: the n-th request gets the n-th reply, then empty pages. *)
Definition scripted (script : list (exn + response))
    : list event -> url -> Z -> exn + response :=
  fun h _ _ => default (ok_page []) (script !! length (fetch_log h)).

Definition rec_ (k : Z) : record := {[ "Id" := JInt k ]}.

Definition show (r : record) : string :=
  match r !! "Id" with
  | Some (JInt k) => "{Id: " +:+ pretty k +:+ "}"
  | _ => "{}"
  end.

Definition no_env : string -> option string := fun _ => None.

Definition full_env : string -> option string := fun k =>
  if decide (k = "SNOWFLAKE_ROLE") then None else Some "x".

Definition w0 : world := World [] ∅.

Definition args0 (page_size : Z) (max_rows : option Z) : iter_pages_args :=
  Args "X" page_size max_rows None None 0 30.

Definition five : list record := [rec_ 1; rec_ 2; rec_ 3; rec_ 4; rec_ 5].

Definition scenario_pages : list (exn + response) :=
  [ok_page [rec_ 1; rec_ 2]; ok_page [rec_ 3; rec_ 4]; ok_page [rec_ 5]; ok_page []].

Definition env_five : environment := Env no_env show (serve five) no_fault.

Definition env_script : environment :=
  Env no_env show (scripted scenario_pages) no_fault.

Definition env_nothing : environment := Env no_env show (serve []) no_fault.

(** The exchanges of scenario A: page size 2, no cap, pages of 2, 2, 1
    rows and then an empty one. *)
Definition scenario_log : list (url * (exn + response)) :=
  [(build_url "X" 0 2 None None, ok_page [rec_ 1; rec_ 2]);
   (build_url "X" 2 2 None None, ok_page [rec_ 3; rec_ 4]);
   (build_url "X" 4 2 None None, ok_page [rec_ 5])].

(** A configured warehouse over the five-row API. *)
Definition env_warehouse : environment := Env full_env show (serve five) no_fault.




(** ** Specification vocabulary *)

Definition push (w : world) (evs : list event) : world :=
  World (trace w ++ evs) (files w).

(** All the rows delivered over a sequence of exchanges. *)
Definition all_rows (log : list (url * (exn + response))) : list record :=
  concat (map (fun x => page_rows x.2) log).

(** A successful reply with no rows: the end-of-data signal. *)
Definition empty_page (res : exn + response) : Prop :=
  exists resp value, res = inr resp /\ status_code resp = 200
    /\ json_body resp = Payload value /\ default [] value = [].

(** The exchanges of one [iter_pages] run, read from cursor [c] on: each
    request skips exactly the rows received before it and asks for the
    clamped page size; every exchange that is followed by another one
    delivered at least one row. *)
Fixpoint well_paged (a : iter_pages_args) (c : Z)
    (log : list (url * (exn + response))) : Prop :=
  match log with
  | [] => True
  | (u, res) :: rest =>
      url_skip u = c /\ next_top a c = Some (url_top u)
      /\ (rest <> [] -> page_rows res <> [])
      /\ well_paged a (c + len (page_rows res)) rest
  end.

(** The API serves the data set [data], honouring [$skip] and [$top]. *)
Definition serves (E : environment) (data : list record) : Prop :=
  forall h u t, exists txt,
    session_get E h u t = inr (Response 200 txt (Payload (Some (page_of data u)))).

(** The API never returns more rows than [$top] asks for. *)
Definition honours_top (E : environment) : Prop :=
  forall h u t, len (page_rows (session_get E h u t)) <= Z.max 0 (url_top u).

(** No call other than an HTTP request ever raises. *)
Definition never_fails (E : environment) : Prop :=
  forall h c, fault E h c = None.

Definition all_nonempty (log : list (url * (exn + response))) : Prop :=
  Forall (fun x => page_rows x.2 <> []) log.

(** Why a run of the generator ended normally: the cap was reached, or
    the last reply was an empty page. *)
Definition ended (a : iter_pages_args) (log : list (url * (exn + response))) : Prop :=
  next_top a (received log) = None
  \/ exists log0 x, log = log0 ++ [x] /\ empty_page x.2.

(** The generator's frame agrees with the exchanges [log] made and the
    records [ys] pulled so far. *)
Definition tracks (a : iter_pages_args) (fr : frame)
    (log : list (url * (exn + response))) (ys : list record) : Prop :=
  match fr with
  | Fresh => log = [] /\ ys = []
  | InPage fetched skip rows rest =>
      fetched = skip /\ all_nonempty log
      /\ fetched + len rows = received log /\ ys ++ rest = all_rows log
  | Finished => ys = all_rows log /\ ended a log
  end.

(** Every logged reply is what the API answered to the logged request. *)
Definition from_api (E : environment) (log : list (url * (exn + response))) : Prop :=
  Forall (fun x => exists h t, x.2 = session_get E h x.1 t) log.

(** How many records a run over the data set [data] is to yield: all of
    them, or as many as a non-negative cap allows. *)
Definition expected_count (a : iter_pages_args) (data : list record) : nat :=
  match max_rows a with
  | None => length data
  | Some cap => Z.to_nat (Z.min cap (len data))
  end.

(** The frame and the records yielded so far agree with a run over [data]. *)
Definition on_course (a : iter_pages_args) (data : list record)
    (fr : frame) (acc : list record) : Prop :=
  match fr with
  | Fresh => acc = []
  | InPage fetched skip rows rest =>
      fetched = skip /\ 0 <= skip
      /\ acc ++ rest = take (Z.to_nat (skip + len rows)) data
      /\ len (acc ++ rest) = skip + len rows
      /\ (forall cap, max_rows a = Some cap -> skip + len rows <= cap)
  | Finished => False
  end.

(** The outcomes of the [conn.commit()] and [conn.close()] calls of a run. *)
Fixpoint commits (tr : list event) : list (option exn) :=
  match tr with
  | [] => []
  | Did Commit err :: tr' => err :: commits tr'
  | _ :: tr' => commits tr'
  end.

Fixpoint closes (tr : list event) : list (option exn) :=
  match tr with
  | [] => []
  | Did Close err :: tr' => err :: closes tr'
  | _ :: tr' => closes tr'
  end.

(** The files opened for writing during a run. *)
Fixpoint opens (tr : list event) : list string :=
  match tr with
  | [] => []
  | Did (Open path) _ :: tr' => path :: opens tr'
  | _ :: tr' => opens tr'
  end.

(** A call that returned normally (or an event that is not a call). *)
Definition ok_event (e : event) : Prop :=
  match e with
  | Did _ (Some _) => False
  | _ => True
  end.

(** What a row stream may do when asked for its next item: talk to the
    API and sleep. *)
Definition source_event (e : event) : Prop :=
  match e with
  | Got _ _ _ | Did (Sleep _) _ => True
  | _ => False
  end.

(** A row stream that leaves the files and the warehouse alone. *)
Class Source (I : Type) `{Iterator I} : Prop :=
  next_source : forall (rows : I) E w,
    exists evs, trace (next rows E w).2 = trace w ++ evs
      /\ Forall source_event evs
      /\ files (next rows E w).2 = files w
      /\ match (next rows E w).1 with
         | Ok _ => Forall ok_event evs
         | _ => True
         end.

(** What the loop of a sink may do besides pulling rows: write to its
    file and insert batches. *)
Definition loop_event (path : string) (e : event) : Prop :=
  match e with
  | Got _ _ _ | Pulled _ | Did (Sleep _) _ | Did (Executemany _ _) _ => True
  | Did (WriteFile p _) _ => p = path
  | _ => False
  end.

(** The parameter tuple the warehouse sink builds for a row. *)
Definition insert_row_of (E : environment) (indicator ingest_date : string)
    (row : record) : insert_row :=
  (indicator, ingest_date, dict_get row "Id", json_dumps E row).

(** Batches of a run with batch size [batch_size]: none is empty or
    larger than the batch size, and all but the last are full. *)
Definition batches_sized (batch_size : Z) (batches : list (list insert_row)) : Prop :=
  forall i b, batches !! i = Some b ->
    1 <= len b <= batch_size
    /\ ((S i < length batches)%nat -> len b = batch_size).

(** The events of a [try] block that has reached [conn.commit()]: every
    call returned, the row stream was exhausted, every row pulled was
    handed to [executemany], and the output file was opened once. *)
Definition ready_to_commit (E : environment) (path indicator ingest_date : string)
    (evs : list event) : Prop :=
  Forall ok_event evs
  /\ commits evs = [] /\ closes evs = []
  /\ Pulled None ∈ evs
  /\ concat (inserts evs) = map (insert_row_of E indicator ingest_date) (yields evs)
  /\ opens evs = [path].

(** The required environment variables that are unset or empty. *)
Definition missing_vars (E : environment) : list string :=
  filter (fun k => if_str (getenv E k) = None) env_map.*1.

(** The API answers its request number [k] (counting from 0) with [res]. *)
Definition answers (E : environment) (k : nat) (res : exn + response) : Prop :=
  forall h u t, length (fetch_log h) = k -> session_get E h u t = res.

(** The content of a JSONL file after the rows [rows] were written to it:
    for each row its serialisation, then a newline. *)
Definition jsonl_from (E : environment) (content : string) (rows : list record) : string :=
  foldl (fun acc r => (acc +:+ json_dumps E r) +:+ nl) content rows.

Definition jsonl (E : environment) (rows : list record) : string :=
  jsonl_from E "" rows.

(** ** One resumption of the generator, case by case *)

(** What [iter_pages] makes of a reply once it has it. *)
Definition reply_outcome (fetched skip : Z) (res : exn + response)
    : result (option record * frame) :=
  match res with
  | inl e => Raise e
  | inr resp =>
      if decide (status_code resp ≠ 200) then Raise (http_error resp)
      else
        match json_body resp with
        | NotJson => Raise JSONDecodeError
        | Payload value =>
            match default [] value with
            | [] => Ok (None, Finished)
            | r :: rest => Ok (Some r, InPage fetched skip (r :: rest) rest)
            end
        end
  end.

(** From its suspension point the generator reaches the head of
    [while True] with counters [fetched], [skip], in world [w1]. *)
Inductive resumes (a : iter_pages_args) (E : environment) (w : world)
    : frame -> Z -> Z -> world -> Prop :=
| rs_fresh : resumes a E w Fresh 0 0 w
| rs_next_page fetched skip rows :
    sleep_s a <= 0 ->
    resumes a E w (InPage fetched skip rows []) (fetched + len rows) (skip + len rows) w
| rs_slept fetched skip rows :
    sleep_s a > 0 ->
    fault E (trace w) (Sleep (sleep_s a)) = None ->
    resumes a E w (InPage fetched skip rows []) (fetched + len rows) (skip + len rows)
      (push w [Did (Sleep (sleep_s a)) None]).

(** The outcome of one [for] turn over the generator. *)
Inductive gen_pull (a : iter_pages_args) (E : environment) (w : world)
    : frame -> result (option record * generator) -> world -> Prop :=
| gp_yield fetched skip rows r rest :
    gen_pull a E w (InPage fetched skip rows (r :: rest))
      (Ok (Some r, Generator a (InPage fetched skip rows rest)))
      (push w [Pulled (Some r)])
| gp_finished :
    gen_pull a E w Finished (Ok (None, Generator a Finished)) (push w [Pulled None])
| gp_sleep_fault fetched skip rows e :
    sleep_s a > 0 ->
    fault E (trace w) (Sleep (sleep_s a)) = Some e ->
    gen_pull a E w (InPage fetched skip rows []) (Raise e)
      (push w [Did (Sleep (sleep_s a)) (Some e)])
| gp_cap fr fetched skip w1 :
    resumes a E w fr fetched skip w1 ->
    next_top a fetched = None ->
    gen_pull a E w fr (Ok (None, Generator a Finished)) (push w1 [Pulled None])
| gp_raise fr fetched skip w1 top u res e :
    resumes a E w fr fetched skip w1 ->
    next_top a fetched = Some top ->
    u = build_url (indicator a) skip top (select a) (filters a) ->
    res = session_get E (trace w1) u (timeout_s a) ->
    reply_outcome fetched skip res = Raise e ->
    gen_pull a E w fr (Raise e) (push w1 [Got u (timeout_s a) res])
| gp_reply fr fetched skip w1 top u res item fr' :
    resumes a E w fr fetched skip w1 ->
    next_top a fetched = Some top ->
    u = build_url (indicator a) skip top (select a) (filters a) ->
    res = session_get E (trace w1) u (timeout_s a) ->
    reply_outcome fetched skip res = Ok (item, fr') ->
    gen_pull a E w fr (Ok (item, Generator a fr'))
      (push w1 [Got u (timeout_s a) res; Pulled item]).

(** * Properties *)

(** ** Traces *)

Lemma fetch_log_app tr1 tr2 : fetch_log (tr1 ++ tr2) = fetch_log tr1 ++ fetch_log tr2.
Proof.
  induction tr1 as [|[c err|u t res|item] tr1 IH]; simpl; [done|done| |done].
  by rewrite IH.
Qed.

Lemma yields_app tr1 tr2 : yields (tr1 ++ tr2) = yields tr1 ++ yields tr2.
Proof.
  induction tr1 as [|[c err|u t res|[r|]] tr1 IH]; simpl; try done.
  by rewrite IH.
Qed.

Lemma inserts_app tr1 tr2 : inserts (tr1 ++ tr2) = inserts tr1 ++ inserts tr2.
Proof.
  induction tr1 as [|[c err|u t res|item] tr1 IH]; simpl; try done.
  destruct c; simpl; try done. by rewrite IH.
Qed.

Lemma received_app log1 log2 : received (log1 ++ log2) = received log1 + received log2.
Proof.
  unfold received. induction log1 as [|x log1 IH]; simpl; [done|].
  rewrite IH. lia.
Qed.

Lemma all_rows_app log1 log2 : all_rows (log1 ++ log2) = all_rows log1 ++ all_rows log2.
Proof. unfold all_rows. by rewrite map_app, concat_app. Qed.

Lemma received_all_rows log : received log = len (all_rows log).
Proof.
  unfold received, all_rows, len. induction log as [|x log IH]; simpl; [done|].
  rewrite IH, length_app. lia.
Qed.

Lemma len_nonneg {A} (l : list A) : 0 <= len l.
Proof. unfold len. lia. Qed.

Lemma len_pos {A} (l : list A) : l <> [] -> 0 < len l.
Proof. unfold len. destruct l; simpl; [done|lia]. Qed.

Lemma len_app {A} (l1 l2 : list A) : len (l1 ++ l2) = len l1 + len l2.
Proof. unfold len. rewrite length_app. lia. Qed.

(** ** The generator, one resumption at a time *)

Lemma push_push w evs1 evs2 : push (push w evs1) evs2 = push w (evs1 ++ evs2).
Proof. unfold push. simpl. by rewrite <- app_assoc. Qed.

Lemma reply_outcome_returns f s res : reply_outcome f s res <> OutOfFuel.
Proof.
  unfold reply_outcome. destruct res as [e|resp]; [done|].
  case_decide; [done|]. destruct (json_body resp) as [|value]; [done|].
  by destruct (default [] value).
Qed.

Lemma body_reply a f s E w top :
  next_top a f = Some top ->
  let u := build_url (indicator a) s top (select a) (filters a) in
  let res := session_get E (trace w) u (timeout_s a) in
  iter_pages_body a f s E w
  = (reply_outcome f s res, push w [Got u (timeout_s a) res]).
Proof.
  intros Htop u res. unfold iter_pages_body. rewrite Htop.
  unfold bind, http_get, reply_outcome. fold u. fold res.
  destruct res as [e|resp]; [done|].
  case_decide; [done|].
  unfold resp_json. destruct (json_body resp) as [|value]; [done|].
  unfold bind, ret. by destruct (default [] value).
Qed.

Lemma pull_body_eq a f s E w1 :
  (let* (item, fr) := iter_pages_body a f s in
   let* _ := log (Pulled item) in
   ret (item, Generator a fr)) E w1
  = match next_top a f with
    | None => (Ok (None, Generator a Finished), push w1 [Pulled None])
    | Some top =>
        let u := build_url (indicator a) s top (select a) (filters a) in
        let res := session_get E (trace w1) u (timeout_s a) in
        match reply_outcome f s res with
        | Ok (item, fr') =>
            (Ok (item, Generator a fr'), push w1 [Got u (timeout_s a) res; Pulled item])
        | Raise e => (Raise e, push w1 [Got u (timeout_s a) res])
        | OutOfFuel => (OutOfFuel, push w1 [Got u (timeout_s a) res])
        end
    end.
Proof.
  unfold bind at 1.
  destruct (next_top a f) as [top|] eqn:Htop.
  - rewrite (body_reply _ _ _ _ _ _ Htop). simpl.
    destruct (reply_outcome f s _) as [[item fr']|e|]; [|done|done].
    unfold bind, log, ret, push. simpl. by rewrite <- app_assoc.
  - unfold iter_pages_body. by rewrite Htop.
Qed.

Lemma pull_body a f s E w fr w1 out :
  resumes a E w fr f s w1 ->
  out = (let* (item, fr) := iter_pages_body a f s in
         let* _ := log (Pulled item) in
         ret (item, Generator a fr)) E w1 ->
  gen_pull a E w fr out.1 out.2.
Proof.
  intros Hres ->. rewrite pull_body_eq.
  destruct (next_top a f) as [top|] eqn:Htop.
  - simpl. destruct (reply_outcome f s _) as [[item fr']|e|] eqn:Hout.
    + by eapply gp_reply.
    + by eapply gp_raise.
    + by apply reply_outcome_returns in Hout.
  - by eapply gp_cap.
Qed.

Lemma pull_gen_eq a fr E w :
  pull (Generator a fr) E w
  = (let* (item, fr') := iter_pages_resume a fr in
     let* _ := log (Pulled item) in
     ret (item, Generator a fr')) E w.
Proof.
  unfold pull, next, generator_iterator, bind. simpl.
  by destruct (iter_pages_resume a fr E w) as [[[item fr']|e|] w'].
Qed.

Lemma pull_gen_pull a fr E w :
  gen_pull a E w fr (pull (Generator a fr) E w).1 (pull (Generator a fr) E w).2.
Proof.
  rewrite pull_gen_eq.
  destruct fr as [|f s rows [|r rest]|].
  - eapply pull_body; [constructor|]. reflexivity.
  - destruct (decide (sleep_s a > 0)) as [Hs|Hs].
    + destruct (fault E (trace w) (Sleep (sleep_s a))) as [e|] eqn:Hf.
      * replace (bind _ _ E w) with
          (@Raise (option record * generator) e, push w [Did (Sleep (sleep_s a)) (Some e)]).
        { by apply gp_sleep_fault. }
        unfold bind. simpl. unfold bind.
        rewrite decide_True by done. unfold perform. by rewrite Hf.
      * eapply pull_body; [by apply rs_slept|].
        unfold bind. simpl. unfold bind.
        rewrite decide_True by done. unfold perform. by rewrite Hf.
    + eapply pull_body; [apply rs_next_page; lia|].
      unfold bind. simpl. unfold bind. by rewrite decide_False by done.
  - apply gp_yield.
  - apply gp_finished.
Qed.

Lemma empty_page_rows res : empty_page res -> page_rows res = [].
Proof.
  intros (resp & value & -> & Hst & Hb & Hv). unfold page_rows.
  rewrite decide_True by done. by rewrite Hb.
Qed.

Lemma reply_outcome_page f s res r fr' :
  reply_outcome f s res = Ok (Some r, fr') ->
  exists rest, fr' = InPage f s (r :: rest) rest /\ page_rows res = r :: rest.
Proof.
  unfold reply_outcome, page_rows. destruct res as [e|resp]; [done|].
  destruct (decide (status_code resp = 200)) as [Hst|Hst].
  2: { by rewrite decide_True by done. }
  rewrite decide_False by (intros ?; done).
  destruct (json_body resp) as [|value]; [done|].
  destruct (default [] value) as [|r' rest]; [done|].
  intros [= <- <-]. by exists rest.
Qed.

Lemma reply_outcome_end f s res fr' :
  reply_outcome f s res = Ok (None, fr') -> fr' = Finished /\ empty_page res.
Proof.
  unfold reply_outcome. destruct res as [e|resp]; [done|].
  case_decide as Hst; [done|].
  destruct (json_body resp) as [|value] eqn:Hb; [done|].
  destruct (default [] value) as [|r' rest] eqn:Hv; [|done].
  intros [= <-]. split; [done|]. by exists resp, value.
Qed.

Lemma reply_outcome_raise f s res e :
  reply_outcome f s res = Raise e -> ~ empty_page res.
Proof.
  unfold reply_outcome. intros Hout (resp & value & -> & Hst & Hb & Hv).
  rewrite decide_False in Hout by (intros ?; done).
  rewrite Hb, Hv in Hout. done.
Qed.

Lemma all_nonempty_not_empty log :
  all_nonempty log -> Forall (fun x => ~ empty_page x.2) log.
Proof.
  intros H. eapply Forall_impl; [exact H|].
  intros x Hx Hemp. by apply Hx, empty_page_rows.
Qed.

Lemma well_paged_snoc a c log u res :
  well_paged a c log -> all_nonempty log ->
  url_skip u = c + received log ->
  next_top a (c + received log) = Some (url_top u) ->
  well_paged a c (log ++ [(u, res)]).
Proof.
  revert c. induction log as [|[u0 res0] log IH]; intros c Hwp Hne Hskip Htop.
  - simpl in *. unfold received in *. simpl in *.
    rewrite Z.add_0_r in *. done.
  - simpl in Hwp. destruct Hwp as (Hs0 & Ht0 & Hnext & Hwp).
    apply Forall_cons in Hne as [Hne0 Hne].
    simpl. split_and!; try done.
    apply IH; try done.
    + rewrite Hskip. unfold received. simpl. lia.
    + rewrite <- Htop. f_equal. unfold received. simpl. lia.
Qed.

Lemma resumes_same a E w fr f s w1 :
  resumes a E w fr f s w1 ->
  fetch_log (trace w1) = fetch_log (trace w)
  /\ yields (trace w1) = yields (trace w)
  /\ inserts (trace w1) = inserts (trace w)
  /\ files w1 = files w.
Proof.
  destruct 1; simpl; rewrite ?fetch_log_app, ?yields_app, ?inserts_app;
    simpl; rewrite ?app_nil_r; done.
Qed.

Lemma resumes_tracks a E w fr f s w1 log ys :
  resumes a E w fr f s w1 -> tracks a fr log ys ->
  f = s /\ s = received log /\ ys = all_rows log /\ all_nonempty log.
Proof.
  destruct 1; simpl.
  - intros [-> ->]. split_and!; try done. constructor.
  - intros (-> & Hne & Hrec & Hys). rewrite app_nil_r in Hys. done.
  - intros (-> & Hne & Hrec & Hys). rewrite app_nil_r in Hys. done.
Qed.

Lemma received_one u res : received [(u, res)] = len (page_rows res).
Proof. unfold received. simpl. lia. Qed.

Lemma all_rows_one u res : all_rows [(u, res)] = page_rows res.
Proof. unfold all_rows. simpl. by rewrite app_nil_r. Qed.

(** One resumption keeps the exchanges well paged and the frame in step
    with the trace. *)
Lemma gen_pull_inv a E w fr res w' :
  gen_pull a E w fr res w' ->
  well_paged a 0 (fetch_log (trace w)) ->
  tracks a fr (fetch_log (trace w)) (yields (trace w)) ->
  well_paged a 0 (fetch_log (trace w'))
  /\ files w' = files w
  /\ inserts (trace w') = inserts (trace w)
  /\ match res with
     | Ok (item, g) =>
         gen_args g = a
         /\ yields (trace w') = yields (trace w) ++ option_list item
         /\ tracks a (gen_frame g) (fetch_log (trace w')) (yields (trace w'))
         /\ match item with
            | None => gen_frame g = Finished
            | Some _ => gen_frame g <> Finished
            end
     | Raise _ =>
         Forall (fun x => ~ empty_page x.2) (fetch_log (trace w'))
         /\ exists rest, yields (trace w') ++ rest = all_rows (fetch_log (trace w'))
     | OutOfFuel => False
     end.
Proof.
  intros Hstep Hwp Htr.
  destruct Hstep as [f s rows r rest| |f s rows e Hs Hf|fr f s w1 Hres Htop
    |fr f s w1 top u res e Hres Htop -> -> Hout
    |fr f s w1 top u res item fr' Hres Htop -> -> Hout]; simpl.
  - rewrite fetch_log_app, yields_app, inserts_app. simpl. rewrite !app_nil_r.
    destruct Htr as (-> & Hne & Hrec & Hys). split_and!; try done.
    by rewrite <- app_assoc.
  - rewrite fetch_log_app, yields_app, inserts_app. simpl. rewrite !app_nil_r.
    destruct Htr as [Hys Hend]. by split_and!.
  - rewrite fetch_log_app, yields_app, inserts_app. simpl. rewrite !app_nil_r.
    destruct Htr as (_ & Hne & _ & Hys). split_and!; try done.
    + by apply all_nonempty_not_empty.
    + by exists [].
  - destruct (resumes_same _ _ _ _ _ _ _ Hres) as (Hl & Hy & Hi & Hfs).
    destruct (resumes_tracks _ _ _ _ _ _ _ _ _ Hres Htr) as (-> & -> & Hys & Hne).
    rewrite fetch_log_app, yields_app, inserts_app. simpl. rewrite !app_nil_r.
    rewrite Hl, Hy, Hi, Hfs. split_and!; try done. by left.
  - destruct (resumes_same _ _ _ _ _ _ _ Hres) as (Hl & Hy & Hi & Hfs).
    destruct (resumes_tracks _ _ _ _ _ _ _ _ _ Hres Htr) as (-> & -> & Hys & Hne).
    rewrite fetch_log_app, yields_app, inserts_app. simpl. rewrite !app_nil_r.
    rewrite Hl, Hy, Hi, Hfs. split_and!; try done.
    + apply well_paged_snoc; try done.
    + apply Forall_app. split; [by apply all_nonempty_not_empty|].
      apply Forall_singleton. simpl. by eapply reply_outcome_raise.
    + eexists. rewrite all_rows_app, Hys. done.
  - destruct (resumes_same _ _ _ _ _ _ _ Hres) as (Hl & Hy & Hi & Hfs).
    destruct (resumes_tracks _ _ _ _ _ _ _ _ _ Hres Htr) as (-> & -> & Hys & Hne).
    rewrite fetch_log_app, yields_app, inserts_app. simpl. rewrite !app_nil_r.
    rewrite Hl, Hy, Hi, Hfs.
    split_and!; try done.
    + apply well_paged_snoc; try done.
    + destruct item as [r|].
      * apply reply_outcome_page in Hout as (rest & -> & Hrows). simpl.
        split_and!; try done.
        -- apply Forall_app. split; [done|]. apply Forall_singleton. simpl.
           by rewrite Hrows.
        -- rewrite received_app, received_one, Hrows. done.
        -- rewrite all_rows_app, all_rows_one, Hrows, Hys.
           by rewrite <- app_assoc.
      * apply reply_outcome_end in Hout as (-> & Hemp). simpl.
        rewrite app_nil_r, all_rows_app, all_rows_one.
        rewrite (empty_page_rows _ Hemp), app_nil_r. split; [done|].
        right. eexists _, _. split; [done|]. done.
    + destruct item as [r|].
      * by apply reply_outcome_page in Hout as (rest & -> & Hrows).
      * by apply reply_outcome_end in Hout as (-> & Hemp).
Qed.

(** ** Draining the generator *)

Lemma to_list_loop_S {I} `{Iterator I} fuel (rows : I) acc E w :
  to_list_loop (S fuel) rows acc E w
  = match pull rows E w with
    | (Ok (None, _), w1) => (Ok acc, w1)
    | (Ok (Some r, rows'), w1) => to_list_loop fuel rows' (acc ++ [r]) E w1
    | (Raise e, w1) => (Raise e, w1)
    | (OutOfFuel, w1) => (OutOfFuel, w1)
    end.
Proof.
  simpl. unfold bind.
  by destruct (pull rows E w) as [[[[r|] rows']|e|] w1].
Qed.

Lemma tracks_live_not_empty a fr log ys :
  fr <> Finished -> tracks a fr log ys ->
  Forall (fun x => ~ empty_page x.2) log.
Proof.
  destruct fr as [|f s rows rest|]; simpl; [| |done].
  - intros _ [-> _]. constructor.
  - intros _ (_ & Hne & _). by apply all_nonempty_not_empty.
Qed.

Lemma tracks_prefix a fr log ys :
  tracks a fr log ys -> exists rest, ys ++ rest = all_rows log.
Proof.
  destruct fr as [|f s rows rest|]; simpl.
  - intros [-> ->]. by exists [].
  - intros (_ & _ & _ & Hys). by exists rest.
  - intros [-> _]. exists []. by rewrite app_nil_r.
Qed.

(** The run of [list(iter_pages(...))] from any live frame. *)
Lemma to_list_gen_inv a E fuel : forall fr acc w res w',
  fr <> Finished ->
  well_paged a 0 (fetch_log (trace w)) ->
  tracks a fr (fetch_log (trace w)) (yields (trace w)) ->
  acc = yields (trace w) ->
  to_list_loop fuel (Generator a fr) acc E w = (res, w') ->
  well_paged a 0 (fetch_log (trace w'))
  /\ files w' = files w
  /\ match res with
     | Ok ys =>
         ys = yields (trace w') /\ ys = all_rows (fetch_log (trace w'))
         /\ ended a (fetch_log (trace w'))
     | _ =>
         Forall (fun x => ~ empty_page x.2) (fetch_log (trace w'))
         /\ exists rest, yields (trace w') ++ rest = all_rows (fetch_log (trace w'))
     end.
Proof.
  induction fuel as [|fuel IH]; intros fr acc w res w' Hlive Hwp Htr -> Hrun.
  - simpl in Hrun. injection Hrun as <- <-.
    split_and!; try done; [by eapply tracks_live_not_empty|].
    by eapply tracks_prefix.
  - rewrite to_list_loop_S in Hrun.
    pose proof (pull_gen_pull a fr E w) as Hstep.
    destruct (pull (Generator a fr) E w) as [out w1]. simpl in Hstep.
    destruct (gen_pull_inv _ _ _ _ _ _ Hstep Hwp Htr) as (Hwp1 & Hfs1 & _ & Hout).
    destruct out as [[[r|] g]|e|].
    + destruct Hout as (Hg & Hy & Htr1 & Hlive1). destruct g as [a' fr1].
      simpl in *. subst a'.
      destruct (IH fr1 _ w1 res w' Hlive1 Hwp1 Htr1 (eq_sym Hy) Hrun)
        as (Hwp' & Hfs' & Hres).
      split_and!; try done. congruence.
    + injection Hrun as <- <-.
      destruct Hout as (Hg & Hy & Htr1 & Hfin). rewrite Hfin in Htr1.
      destruct Htr1 as [Hys Hend]. simpl in Hy. rewrite app_nil_r in Hy.
      split_and!; try done; congruence.
    + injection Hrun as <- <-. destruct Hout as [Hne Hrest]. by split_and!.
    + done.
Qed.

Lemma to_list_iter_pages_inv a E fuel fs res w' :
  to_list fuel (iter_pages a) E (World [] fs) = (res, w') ->
  well_paged a 0 (fetch_log (trace w'))
  /\ files w' = fs
  /\ match res with
     | Ok ys =>
         ys = yields (trace w') /\ ys = all_rows (fetch_log (trace w'))
         /\ ended a (fetch_log (trace w'))
     | _ =>
         Forall (fun x => ~ empty_page x.2) (fetch_log (trace w'))
         /\ exists rest, yields (trace w') ++ rest = all_rows (fetch_log (trace w'))
     end.
Proof.
  intros Hrun. unfold to_list, iter_pages in Hrun.
  by eapply (to_list_gen_inv a E fuel Fresh [] (World [] fs)).
Qed.

Lemma gen_pull_from_api a E w fr res w' :
  gen_pull a E w fr res w' ->
  from_api E (fetch_log (trace w)) -> from_api E (fetch_log (trace w')).
Proof.
  intros Hstep Hlog.
  destruct Hstep as [f s rows r rest| |f s rows e Hs Hf|fr f s w1 Hres Htop
    |fr f s w1 top u res e Hres Htop -> -> Hout
    |fr f s w1 top u res item fr' Hres Htop -> -> Hout]; simpl;
    try (destruct (resumes_same _ _ _ _ _ _ _ Hres) as (Hl & _));
    rewrite fetch_log_app; simpl; rewrite ?app_nil_r, ?Hl; try done.
  - apply Forall_app. split; [done|]. apply Forall_singleton. simpl. eauto.
  - apply Forall_app. split; [done|]. apply Forall_singleton. simpl. eauto.
Qed.

Lemma to_list_from_api a E fuel : forall fr acc w,
  from_api E (fetch_log (trace w)) ->
  from_api E (fetch_log (trace (to_list_loop fuel (Generator a fr) acc E w).2)).
Proof.
  induction fuel as [|fuel IH]; intros fr acc w Hlog; [done|].
  rewrite to_list_loop_S.
  pose proof (pull_gen_pull a fr E w) as Hstep.
  apply gen_pull_from_api in Hstep; [|done].
  destruct (pull (Generator a fr) E w) as [[[[r|] [a' fr1]]|e|] w1] eqn:Hp;
    simpl in *; try done.
  assert (a' = a) as ->.
  { rewrite pull_gen_eq in Hp. unfold bind in Hp.
    destruct (iter_pages_resume a fr E w) as [[[item fr2]|e|] w2];
      unfold ret in Hp; simpl in Hp; congruence. }
  by apply IH.
Qed.

(** ** What a well-paged log says about cursors and page sizes *)

Lemma received_take_S log i x :
  log !! i = Some x ->
  received (take (S i) log) = received (take i log) + len (page_rows x.2).
Proof.
  intros Hx. rewrite (take_S_r _ _ _ Hx), received_app.
  destruct x as [u res]. by rewrite received_one.
Qed.

Lemma received_nonneg log : 0 <= received log.
Proof. rewrite received_all_rows. apply len_nonneg. Qed.

Lemma received_take_mono log i j :
  (i <= j)%nat -> received (take i log) <= received (take j log).
Proof.
  intros Hij. replace j with (i + (j - i))%nat by lia.
  rewrite <- take_take_drop, received_app.
  pose proof (received_nonneg (take (j - i) (drop i log))). lia.
Qed.

Lemma well_paged_lookup a log : forall c i u res,
  well_paged a c log -> log !! i = Some (u, res) ->
  url_skip u = c + received (take i log)
  /\ next_top a (c + received (take i log)) = Some (url_top u)
  /\ ((S i < length log)%nat -> page_rows res <> []).
Proof.
  induction log as [|[u0 res0] log IH]; intros c i u res Hwp Hi; [done|].
  destruct Hwp as (Hs & Ht & Hne & Hwp).
  destruct i as [|i]; simpl in Hi.
  - injection Hi as -> ->. simpl. unfold received. simpl.
    rewrite Z.add_0_r. split_and!; try done.
    intros Hlen. apply Hne. destruct log; simpl in *; [lia|done].
  - destruct (IH _ _ _ _ Hwp Hi) as (Hs' & Ht' & Hne').
    assert (c + received (take (S i) ((u0, res0) :: log))
            = c + len (page_rows res0) + received (take i log)) as ->.
    { simpl. unfold received. simpl. lia. }
    split_and!; try done. intros Hlen. apply Hne'. simpl in Hlen. lia.
Qed.

Lemma well_paged_strict a log i j xi xj :
  well_paged a 0 log -> log !! i = Some xi -> log !! j = Some xj ->
  (i < j)%nat -> url_skip xi.1 < url_skip xj.1.
Proof.
  intros Hwp Hi Hj Hij. destruct xi as [ui ri], xj as [uj rj].
  destruct (well_paged_lookup _ _ _ _ _ _ Hwp Hi) as (Hsi & _ & Hne).
  destruct (well_paged_lookup _ _ _ _ _ _ Hwp Hj) as (Hsj & _ & _).
  simpl. rewrite Hsi, Hsj. apply lookup_lt_Some in Hj.
  pose proof (len_pos _ (Hne ltac:(lia))) as Hpos.
  pose proof (received_take_S _ _ _ Hi) as HS. simpl in HS.
  pose proof (received_take_mono log (S i) j ltac:(lia)). lia.
Qed.

(** ** Claims about the pagination driver *)

(** C5. Within one run of [iter_pages] the cursors ([$skip]) of the
    successive requests are strictly increasing and never repeat; each one
    equals the number of records received before its request; the first is
    0, and each next one is the previous one plus the length of the page
    received in between, which is not empty. *)
Theorem cursor_sequence_strictly_increasing
    (a : iter_pages_args) (E : environment) (fuel : nat) (fs : gmap string string) :
  let log := fetch_log (trace (to_list fuel (iter_pages a) E (World [] fs)).2) in
  let cursors := map (fun x => url_skip x.1) log in
  (forall i j ci cj, cursors !! i = Some ci -> cursors !! j = Some cj ->
     (i < j)%nat -> ci < cj)
  /\ NoDup cursors
  /\ (forall i x, log !! i = Some x -> url_skip x.1 = received (take i log))
  /\ (forall x log', log = x :: log' -> url_skip x.1 = 0)
  /\ (forall i x y, log !! i = Some x -> log !! S i = Some y ->
        page_rows x.2 <> [] /\ url_skip y.1 = url_skip x.1 + len (page_rows x.2)).
Proof.
  intros log cursors.
  destruct (to_list fuel (iter_pages a) E (World [] fs)) as [res w'] eqn:Hrun.
  destruct (to_list_iter_pages_inv _ _ _ _ _ _ Hrun) as (Hwp & _ & _).
  simpl in log. fold log in Hwp.
  assert (Hstrict : forall i j ci cj, cursors !! i = Some ci ->
            cursors !! j = Some cj -> (i < j)%nat -> ci < cj).
  { intros i j ci cj Hi Hj Hij. unfold cursors in Hi, Hj.
    rewrite list_lookup_fmap in Hi, Hj.
    destruct (log !! i) as [xi|] eqn:Hxi; [|done].
    destruct (log !! j) as [xj|] eqn:Hxj; [|done].
    injection Hi as <-. injection Hj as <-.
    by eapply well_paged_strict. }
  split_and!.
  - exact Hstrict.
  - apply NoDup_alt. intros i j c Hi Hj.
    destruct (Nat.lt_trichotomy i j) as [Hlt|[->|Hlt]]; [|done|].
    + pose proof (Hstrict _ _ _ _ Hi Hj Hlt). lia.
    + pose proof (Hstrict _ _ _ _ Hj Hi Hlt). lia.
  - intros i [u r] Hi. simpl.
    by destruct (well_paged_lookup _ _ _ _ _ _ Hwp Hi) as (-> & _).
  - intros [u r] log' Hlog. rewrite Hlog in Hwp. simpl.
    by destruct Hwp as (-> & _).
  - intros i [u r] [u' r'] Hi Hj.
    destruct (well_paged_lookup _ _ _ _ _ _ Hwp Hi) as (Hs & _ & Hne).
    destruct (well_paged_lookup _ _ _ _ _ _ Hwp Hj) as (Hs' & _ & _).
    simpl. split.
    + apply Hne. by apply lookup_lt_Some in Hj.
    + rewrite Hs, Hs'. pose proof (received_take_S _ _ _ Hi) as HS.
      simpl in HS. lia.
Qed.

Lemma snoc_cases {A} (l : list A) : l = [] \/ exists l0 x, l = l0 ++ [x].
Proof. induction l as [|x l0 _] using rev_ind; [by left|right; eauto]. Qed.

Lemma next_top_cap a cap fetched top :
  max_rows a = Some cap -> next_top a fetched = Some top ->
  top = Z.min (page_size a) (cap - fetched) /\ fetched < cap.
Proof.
  unfold next_top. intros ->. case_decide; [done|].
  intros [= <-]. split; [done|lia].
Qed.

Lemma yields_le_received tr log :
  (exists rest, yields tr ++ rest = all_rows log) -> len (yields tr) <= received log.
Proof.
  intros [rest Hrest]. rewrite received_all_rows, <- Hrest, len_app.
  pose proof (len_nonneg rest). lia.
Qed.

(** C6. With a row cap set, every request asks for the configured page
    size clamped to the headroom left under the cap: the records received
    so far plus the size asked for never exceed the cap, and when the page
    size is at least the headroom the request asks for exactly the
    headroom.  Against an API that returns no more rows than asked for, the
    records received and yielded never exceed the cap. *)
Theorem page_size_clamped_to_headroom
    (a : iter_pages_args) (E : environment) (fuel : nat)
    (fs : gmap string string) (cap : Z) :
  max_rows a = Some cap ->
  let run := to_list fuel (iter_pages a) E (World [] fs) in
  let log := fetch_log (trace run.2) in
  (forall i u res, log !! i = Some (u, res) ->
     let fetched := received (take i log) in
     url_top u = Z.min (page_size a) (cap - fetched)
     /\ fetched + url_top u <= cap
     /\ fetched < cap
     /\ (cap - fetched <= page_size a -> url_top u = cap - fetched))
  /\ (honours_top E ->
      received log <= Z.max 0 cap
      /\ len (yields (trace run.2)) <= Z.max 0 cap
      /\ forall ys, run.1 = Ok ys -> len ys <= Z.max 0 cap).
Proof.
  intros Hcap run log.
  assert (Hapi : from_api E
            (fetch_log (trace (to_list fuel (iter_pages a) E (World [] fs)).2))).
  { apply (to_list_from_api a E fuel Fresh [] (World [] fs)). constructor. }
  destruct (to_list fuel (iter_pages a) E (World [] fs)) as [res w'] eqn:Hrun.
  destruct (to_list_iter_pages_inv _ _ _ _ _ _ Hrun) as (Hwp & _ & Hres).
  simpl in log, Hapi. fold log in Hwp, Hres, Hapi.
  assert (Hreq : forall i u r, log !! i = Some (u, r) ->
            url_top u = Z.min (page_size a) (cap - received (take i log))
            /\ received (take i log) < cap).
  { intros i u r Hi.
    destruct (well_paged_lookup _ _ _ _ _ _ Hwp Hi) as (_ & Htop & _).
    by eapply next_top_cap. }
  split.
  - intros i u r Hi fetched. destruct (Hreq _ _ _ Hi) as [Htop Hlt].
    fold fetched in Htop, Hlt. split_and!; try done; lia.
  - intros Hhon.
    assert (Hrec : received log <= Z.max 0 cap).
    { destruct (snoc_cases log) as [Hlog|(log0 & [u r] & Hlog)];
        rewrite Hlog in *.
      - unfold received. simpl. lia.
      - assert (Hi : (log0 ++ [(u, r)]) !! length log0 = Some (u, r)).
        { by rewrite lookup_app_r, Nat.sub_diag by lia. }
        destruct (Hreq _ _ _ Hi) as [Htop Hlt].
        rewrite take_app_length in Htop, Hlt.
        rewrite received_app, received_one.
        unfold from_api in Hapi.
        apply Forall_app in Hapi as [_ Hx]. rewrite Forall_singleton in Hx.
        destruct Hx as (h & t & Hx). simpl in Hx.
        pose proof (Hhon h u t) as Hle. rewrite <- Hx in Hle. lia. }
    assert (Hy : len (yields (trace w')) <= received log).
    { apply yields_le_received. destruct res as [ys|e|].
      - destruct Hres as (<- & Hall & _). exists []. by rewrite app_nil_r.
      - by destruct Hres as [_ Hrest].
      - by destruct Hres as [_ Hrest]. }
    simpl. split_and!; [done|lia|].
    intros ys ->. destruct Hres as (-> & _). lia.
Qed.

(** C8. Whatever the cap and the headroom left, an empty page ends the
    run at once: the exchange that delivered it is the last one, and the
    run returns normally, having yielded exactly the rows received before. *)
Theorem stops_at_first_empty_page
    (a : iter_pages_args) (E : environment) (fuel : nat)
    (fs : gmap string string) pre x post :
  let run := to_list fuel (iter_pages a) E (World [] fs) in
  fetch_log (trace run.2) = pre ++ x :: post ->
  empty_page x.2 ->
  post = [] /\ run.1 = Ok (all_rows pre) /\ yields (trace run.2) = all_rows pre.
Proof.
  intros run Hlog Hemp. unfold run in *. clear run.
  destruct (to_list fuel (iter_pages a) E (World [] fs)) as [res w'] eqn:Hrun.
  destruct (to_list_iter_pages_inv _ _ _ _ _ _ Hrun) as (Hwp & _ & Hres).
  simpl in *. rewrite Hlog in Hwp, Hres.
  assert (Hpost : post = []).
  { destruct post as [|y post]; [done|]. exfalso.
    assert (Hi : (pre ++ x :: y :: post) !! length pre = Some x).
    { by rewrite lookup_app_r, Nat.sub_diag by lia. }
    destruct x as [u r].
    destruct (well_paged_lookup _ _ _ _ _ _ Hwp Hi) as (_ & _ & Hne).
    apply Hne; [|by apply empty_page_rows].
    rewrite length_app. simpl. lia. }
  subst post. split; [done|].
  assert (Hall : all_rows (pre ++ [x]) = all_rows pre).
  { destruct x as [u r]. rewrite all_rows_app, all_rows_one. simpl in Hemp.
    rewrite (empty_page_rows _ Hemp). by rewrite app_nil_r. }
  destruct res as [ys|e|].
  - destruct Hres as (Hy & -> & _). rewrite <- Hy. by rewrite Hall.
  - destruct Hres as [Hne _]. apply Forall_app in Hne as [_ Hx].
    rewrite Forall_singleton in Hx. done.
  - destruct Hres as [Hne _]. apply Forall_app in Hne as [_ Hx].
    rewrite Forall_singleton in Hx. done.
Qed.

(** ** Running against an API that serves a fixed data set *)

Section Serving.
Context (a : iter_pages_args) (E : environment) (data : list record).
Hypothesis page_size_pos : 0 < page_size a.
Hypothesis api_serves : serves E data.
Hypothesis no_faults : never_fails E.

Lemma expected_count_le : (expected_count a data <= length data)%nat.
Proof.
  unfold expected_count, len. destruct (max_rows a) as [cap|]; lia.
Qed.

Lemma served_outcome f s h u t :
  reply_outcome f s (session_get E h u t)
  = match page_of data u with
    | [] => Ok (None, Finished)
    | r :: rest => Ok (Some r, InPage f s (r :: rest) rest)
    end.
Proof.
  destruct (api_serves h u t) as [txt ->]. unfold reply_outcome. simpl.
  done.
Qed.

(** At the head of [while True] with [f] records fetched and yielded. *)
Lemma resumes_on_course w fr f s w1 acc :
  resumes a E w fr f s w1 -> on_course a data fr acc ->
  f = s /\ 0 <= f /\ acc = take (Z.to_nat f) data /\ len acc = f
  /\ (forall cap, max_rows a = Some cap -> f <= Z.max 0 cap).
Proof.
  destruct 1; simpl.
  - intros ->. split_and!; try done. intros; lia.
  - intros (-> & Hs & Hacc & Hlen & Hcap). rewrite app_nil_r in *.
    pose proof (len_nonneg rows). split_and!; try done; try lia.
    intros cap Hc. specialize (Hcap _ Hc). lia.
  - intros (-> & Hs & Hacc & Hlen & Hcap). rewrite app_nil_r in *.
    pose proof (len_nonneg rows). split_and!; try done; try lia.
    intros cap Hc. specialize (Hcap _ Hc). lia.
Qed.

Lemma drain_served fuel : forall fr acc w,
  on_course a data fr acc ->
  (length acc <= expected_count a data)%nat ->
  (fuel > expected_count a data - length acc)%nat ->
  (to_list_loop fuel (Generator a fr) acc E w).1
  = Ok (take (expected_count a data) data).
Proof.
  induction fuel as [|fuel IH]; intros fr acc w Hok Hle Hfuel; [lia|].
  rewrite to_list_loop_S.
  pose proof (pull_gen_pull a fr E w) as Hstep.
  destruct (pull (Generator a fr) E w) as [out w1]. simpl in Hstep.
  destruct Hstep as [f s rows r rest| |f s rows e Hs Hf|fr f s w1 Hres Htop
    |fr f s w1 top u res e Hres Htop -> -> Hout
    |fr f s w1 top u res item fr' Hres Htop -> -> Hout].
  - (* the next row of the page at hand *)
    destruct Hok as (-> & Hs & Hacc & Hlen & Hcap).
    assert (Hk : (length (acc ++ r :: rest) <= expected_count a data)%nat).
    { unfold expected_count. unfold len in Hlen.
      assert (length (acc ++ r :: rest) <= length data)%nat.
      { rewrite Hacc, length_take. lia. }
      destruct (max_rows a) as [cap|] eqn:Hc; [|done].
      specialize (Hcap _ eq_refl). unfold len in *. lia. }
    rewrite length_app in Hk. simpl in Hk.
    apply IH.
    + simpl. rewrite <- !app_assoc. simpl. done.
    + rewrite length_app. simpl. lia.
    + rewrite length_app. simpl. lia.
  - done.
  - by rewrite no_faults in Hf.
  - (* the cap is reached *)
    destruct (resumes_on_course _ _ _ _ _ _ Hres Hok) as (-> & Hs & Hacc & Hlen & Hcap).
    simpl. f_equal. rewrite Hacc at 1. f_equal.
    unfold next_top in Htop. destruct (max_rows a) as [cap|] eqn:Hc; [|done].
    case_decide; [|done]. specialize (Hcap _ eq_refl).
    unfold expected_count. rewrite Hc.
    assert (s <= len data).
    { rewrite <- Hlen, Hacc. unfold len. rewrite length_take. lia. }
    lia.
  - rewrite served_outcome in Hout. by destruct (page_of data _).
  - (* a page arrives *)
    destruct (resumes_on_course _ _ _ _ _ _ Hres Hok) as (-> & Hs & Hacc & Hlen & Hcap).
    rewrite served_outcome in Hout.
    assert (Htop' : 0 < top /\ forall cap, max_rows a = Some cap -> s + top <= cap).
    { unfold next_top in Htop. destruct (max_rows a) as [cap|] eqn:Hc.
      - case_decide; [done|]. injection Htop as <-. split; [lia|].
        intros ? [= <-]. lia.
      - injection Htop as <-. done. }
    destruct Htop' as [Hpos Hroom].
    unfold page_of in Hout. simpl in Hout.
    assert (Hin : (length acc <= length data)%nat).
    { rewrite Hacc, length_take. lia. }
    assert (Hs' : Z.to_nat s = length acc) by (unfold len in Hlen; lia).
    destruct (take (Z.to_nat top) (drop (Z.to_nat s) data)) as [|r rest] eqn:Hpage.
    + (* the data set is exhausted *)
      injection Hout as <- <-. simpl. f_equal.
      assert (Hall : (length data <= length acc)%nat).
      { apply (f_equal length) in Hpage. rewrite length_take, length_drop in Hpage.
        simpl in Hpage. lia. }
      assert (Heq : acc = data).
      { rewrite Hacc. apply take_ge. lia. }
      rewrite Heq at 1. symmetry. apply take_ge.
      unfold expected_count. destruct (max_rows a) as [cap|] eqn:Hc; [|done].
      specialize (Hroom _ eq_refl). unfold len in *. lia.
    + injection Hout as <- <-.
      assert (Hlp : (length (r :: rest) <= Z.to_nat top)%nat
                    /\ (length acc + length (r :: rest) <= length data)%nat).
      { rewrite <- Hpage, length_take, length_drop. lia. }
      destruct Hlp as [Hlp1 Hlp2].
      assert (Hnew : acc ++ r :: rest
                     = take (Z.to_nat (s + len (r :: rest))) data).
      { rewrite Hacc at 1. rewrite <- Hpage, Hs'.
        rewrite take_take_drop.
        replace (Z.to_nat (s + len (take (Z.to_nat top) (drop (length acc) data))))
          with (length acc + length (take (Z.to_nat top) (drop (length acc) data)))%nat
          by (unfold len; lia).
        rewrite length_take, length_drop.
        destruct (decide (Z.to_nat top <= length data - length acc)%nat).
        - by rewrite Nat.min_l by lia.
        - rewrite Nat.min_r by lia. rewrite !take_ge; [done|lia|lia]. }
      assert (Hk : (length acc + length (r :: rest) <= expected_count a data)%nat).
      { unfold expected_count. destruct (max_rows a) as [cap|] eqn:Hc; [|done].
        specialize (Hroom _ eq_refl). unfold len in *. lia. }
      simpl in Hk.
      apply IH.
      * simpl. rewrite <- app_assoc. simpl. split_and!; try done.
        -- rewrite len_app. lia.
        -- intros cap Hc. specialize (Hroom _ Hc). unfold len in *. lia.
      * rewrite length_app. simpl. lia.
      * rewrite length_app. simpl. lia.
Qed.

Lemma to_list_served fuel fs :
  (fuel > length data)%nat ->
  (to_list fuel (iter_pages a) E (World [] fs)).1
  = Ok (take (expected_count a data) data).
Proof.
  intros Hfuel. apply drain_served; simpl; [done|lia|].
  pose proof expected_count_le. lia.
Qed.
End Serving.

(** C1 (amended). Against an API that serves [data] and with a positive
    page size, a run yields the first [min(total, cap)] records of the data
    set when the cap is non-negative, none when it is negative, and all of
    them without a cap; the yielded sequence is empty exactly when no
    record is available or the cap is zero or less. *)
Theorem yields_min_of_available_and_cap
    (a : iter_pages_args) (E : environment) (data : list record)
    (fuel : nat) (fs : gmap string string) :
  0 < page_size a -> serves E data -> never_fails E ->
  (fuel > length data)%nat ->
  exists ys,
    (to_list fuel (iter_pages a) E (World [] fs)).1 = Ok ys
    /\ ys = take (expected_count a data) data
    /\ len ys = match max_rows a with
                | None => len data
                | Some cap => Z.max 0 (Z.min (len data) cap)
                end
    /\ (ys = [] <-> data = [] \/ exists cap, max_rows a = Some cap /\ cap <= 0).
Proof.
  intros Hps Hserve Hquiet Hfuel.
  exists (take (expected_count a data) data).
  split; [by apply to_list_served|]. split; [done|].
  assert (Hlen : len (take (expected_count a data) data)
                 = match max_rows a with
                   | None => len data
                   | Some cap => Z.max 0 (Z.min (len data) cap)
                   end).
  { unfold len, expected_count. rewrite length_take.
    destruct (max_rows a) as [cap|]; unfold len; lia. }
  split; [done|].
  split.
  - intros Hnil. rewrite Hnil in Hlen. unfold len in Hlen. simpl in Hlen.
    destruct (max_rows a) as [cap|].
    + destruct data as [|r data]; [by left|right].
      exists cap. split; [done|]. simpl in Hlen. lia.
    + left. destruct data; [done|simpl in Hlen; lia].
  - intros [->|(cap & Hcap & Hle)].
    + by rewrite take_nil.
    + unfold expected_count. rewrite Hcap.
      replace (Z.to_nat (Z.min cap (len data))) with 0%nat by lia. done.
Qed.

Lemma yields_min_of_available_and_cap_witness :
  exists ys,
    (to_list 6 (iter_pages (args0 2 (Some 3))) env_five w0).1 = Ok ys
    /\ ys = take (expected_count (args0 2 (Some 3)) five) five
    /\ len ys = Z.max 0 (Z.min (len five) 3)
    /\ (ys = [] <-> five = [] \/ exists cap, Some 3 = Some cap /\ cap <= 0).
Proof.
  apply (yields_min_of_available_and_cap (args0 2 (Some 3)) env_five five 6 ∅).
  - simpl. lia.
  - intros h u t. by eexists.
  - intros h c. reflexivity.
  - simpl. lia.
Defined.

(** C1 as stated fails: with cap 5 and nothing to serve the sequence is
    empty although the cap is not 0; with cap -1 it is empty as well, and
    its length is not [min(5, -1)]. *)
Lemma empty_sequence_without_zero_cap :
  (to_list 3 (iter_pages (args0 2 (Some 5))) env_nothing w0).1 = Ok []
  /\ max_rows (args0 2 (Some 5)) <> Some 0
  /\ (to_list 6 (iter_pages (args0 2 (Some (-1)))) env_five w0).1 = Ok []
  /\ len (@nil record) <> Z.min (len five) (-1).
Proof. split_and!; [reflexivity|done|reflexivity|done]. Qed.

Lemma page_size_clamped_to_headroom_witness :
  let run := to_list 6 (iter_pages (args0 2 (Some 3))) env_five w0 in
  map (fun x => url_top x.1) (fetch_log (trace run.2)) = [2; 1]
  /\ len (yields (trace run.2)) <= 3.
Proof.
  pose proof (page_size_clamped_to_headroom (args0 2 (Some 3)) env_five 6 ∅ 3
                eq_refl) as [Hreq Hcap].
  split; [reflexivity|].
  assert (Hhon : honours_top env_five).
  { intros h u t. unfold env_five, serve, page_of, page_rows, len. simpl.
    rewrite length_take. lia. }
  destruct (Hcap Hhon) as (_ & Hy & _). exact Hy.
Defined.

Lemma stops_at_first_empty_page_witness :
  let run := to_list 9 (iter_pages (args0 2 None)) env_script w0 in
  fetch_log (trace run.2)
    = scenario_log ++ (build_url "X" 5 2 None None, ok_page []) :: []
  /\ run.1 = Ok five.
Proof.
  split; [reflexivity|].
  refine (proj1 (proj2 (stops_at_first_empty_page (args0 2 None) env_script 9 ∅
            scenario_log (build_url "X" 5 2 None None, ok_page []) []
            eq_refl _))).
  exists (Response 200 "" (Payload (Some []))), (Some []). by split_and!.
Defined.

(** ** Running monadic code backwards *)

Lemma bind_inv {A B} (m : M A) (k : A -> M B) E w res w' :
  bind m k E w = (res, w') ->
  (exists x w1, m E w = (Ok x, w1) /\ k x E w1 = (res, w'))
  \/ (exists e, m E w = (Raise e, w') /\ res = Raise e)
  \/ (m E w = (OutOfFuel, w') /\ res = OutOfFuel).
Proof.
  unfold bind. destruct (m E w) as [[x|e|] w1]; intros Hrun.
  - left. eauto.
  - injection Hrun as <- <-. right. left. eauto.
  - injection Hrun as <- <-. right. right. eauto.
Qed.

Lemma perform_inv c E w res w' :
  perform c E w = (res, w') ->
  (res = Ok tt /\ w' = World (trace w ++ [Did c None]) (effect c (files w)))
  \/ (exists e, res = Raise e /\ w' = push w [Did c (Some e)]).
Proof.
  unfold perform. destruct (fault E (trace w) c) as [e|]; intros [= <- <-].
  - right. eauto.
  - left. eauto.
Qed.

Lemma ret_inv {A} (x : A) E w res w' :
  ret x E w = (res, w') -> res = Ok x /\ w' = w.
Proof. by intros [= <- <-]. Qed.

Lemma dumps_inv r E w res w' :
  dumps r E w = (res, w') -> res = Ok (json_dumps E r) /\ w' = w.
Proof. by intros [= <- <-]. Qed.

Lemma try_finally_inv {A} (body : M A) final E w res w' :
  try_finally body final E w = (res, w') ->
  (exists w1, body E w = (OutOfFuel, w1) /\ res = OutOfFuel /\ w' = w1)
  \/ (exists r w1 f, body E w = (r, w1) /\ r <> OutOfFuel
         /\ final E w1 = (f, w')
         /\ res = match f with Ok _ => r | Raise e => Raise e | OutOfFuel => OutOfFuel end).
Proof.
  unfold try_finally. destruct (body E w) as [[x|e|] w1] eqn:Hb.
  - destruct (final E w1) as [[u|e|] w2] eqn:Hf; intros [= <- <-];
      right; eexists _, _, _; by rewrite Hf.
  - destruct (final E w1) as [[u|e'|] w2] eqn:Hf; intros [= <- <-];
      right; eexists _, _, _; by rewrite Hf.
  - intros [= <- <-]. left. eauto.
Qed.

(** Take apart a hypothesis that runs a piece of monadic code; the cases
    that contradict the outcome at hand are closed. *)
Tactic Notation "bind_cases" hyp(H) "as" ident(H1) ident(H2) :=
  apply bind_inv in H as [(? & ? & H1 & H2)|[(? & H1 & ?)|(H1 & ?)]];
  simplify_eq.

Tactic Notation "bind_cases" hyp(H) "to" ident(v) ident(w1)
    "as" ident(H1) ident(H2) :=
  apply bind_inv in H as [(v & w1 & H1 & H2)|[(? & H1 & ?)|(H1 & ?)]];
  simplify_eq.

Ltac run_inv H :=
  lazymatch type of H with
  | perform _ _ _ = _ =>
      apply perform_inv in H as [[? ?]|(? & ? & ?)]; simplify_eq
  | ret _ _ _ = _ => apply ret_inv in H as [? ?]; simplify_eq
  | dumps _ _ _ = _ => apply dumps_inv in H as [? ?]; simplify_eq
  end.

Lemma pull_inv {I} `{Source I} (rows : I) E w res w' :
  pull rows E w = (res, w') ->
  exists evs, Forall source_event evs /\ files w' = files w
    /\ match res with
       | Ok (item, _) =>
           trace w' = trace w ++ evs ++ [Pulled item] /\ Forall ok_event evs
       | _ => trace w' = trace w ++ evs
       end.
Proof.
  unfold pull. intros Hrun.
  destruct (next_source rows E w) as (evs & Htr & Hsrc & Hfs & Hok).
  exists evs. split; [done|].
  bind_cases Hrun as Hnext Hlog.
  - rewrite Hnext in Htr, Hfs, Hok. simpl in *. destruct x as [item rows'].
    unfold bind, log, ret in Hlog. simpl in Hlog. injection Hlog as <- <-.
    simpl. rewrite Htr, Hfs. by rewrite <- app_assoc.
  - rewrite Hnext in Htr, Hfs. simpl in *. done.
  - rewrite Hnext in Htr, Hfs. simpl in *. done.
Qed.

#[export] Instance list_source : Source (list record).
Proof.
  intros rows E w. exists []. rewrite app_nil_r.
  destruct rows; simpl; split_and!; done || constructor.
Qed.

#[export] Instance generator_source : Source generator.
Proof.
  intros [a fr] E w. unfold next, generator_iterator. simpl.
  assert (Hbody : forall f s w1, exists evs,
            trace (iter_pages_body a f s E w1).2 = trace w1 ++ evs
            /\ Forall source_event evs
            /\ files (iter_pages_body a f s E w1).2 = files w1
            /\ Forall ok_event evs).
  { intros f s w1. destruct (next_top a f) as [top|] eqn:Htop.
    - rewrite (body_reply _ _ _ _ _ _ Htop). simpl. eexists. split; [done|].
      split_and!; [|done|]; by apply Forall_singleton.
    - unfold iter_pages_body. rewrite Htop. simpl. exists [].
      by rewrite app_nil_r. }
  assert (Hwrap : forall (m : M (option record * frame)) w1 evs,
            (match (m E w1).1 with Ok _ => Forall ok_event evs | _ => True end) ->
            match (bind m (fun '(item, fr) => ret (item, Generator a fr)) E w1).1
            with Ok _ => Forall ok_event evs | _ => True end).
  { intros m w1 evs. unfold bind. by destruct (m E w1) as [[[item fr']|e|] w2]. }
  assert (Hsnd : forall (m : M (option record * frame)) w1,
            (bind m (fun '(item, fr) => ret (item, Generator a fr)) E w1).2
            = (m E w1).2).
  { intros m w1. unfold bind. by destruct (m E w1) as [[[item fr']|e|] w2]. }
  rewrite Hsnd.
  assert (Hgoal : exists evs,
            trace (iter_pages_resume a fr E w).2 = trace w ++ evs
            /\ Forall source_event evs
            /\ files (iter_pages_resume a fr E w).2 = files w
            /\ match (iter_pages_resume a fr E w).1 with
               | Ok _ => Forall ok_event evs
               | _ => True
               end).
  { destruct fr as [|f s rows [|r rest]|]; simpl.
    - destruct (Hbody 0 0 w) as (evs & ? & ? & ? & ?). exists evs.
      split_and!; try done. by destruct (iter_pages_body a 0 0 E w).1.
    - unfold bind. case_decide.
      + unfold perform. destruct (fault E (trace w) _) as [e|] eqn:Hf.
        * simpl. eexists. split; [done|]. split_and!; [|done..].
          by apply Forall_singleton.
        * destruct (Hbody (f + len rows) (s + len rows)
                      (World (trace w ++ [Did (Sleep (sleep_s a)) None])
                         (effect (Sleep (sleep_s a)) (files w))))
            as (evs & Htr & Hsrc & Hfs & Hok).
          simpl in *. rewrite Htr, Hfs. eexists. rewrite <- app_assoc.
          split; [done|]. split_and!; [by apply Forall_cons|done|].
          destruct (iter_pages_body a _ _ E _).1; [|done..].
          by apply Forall_cons.
      + simpl. destruct (Hbody (f + len rows) (s + len rows) w)
          as (evs & ? & ? & ? & ?). exists evs.
        split_and!; try done. by destruct (iter_pages_body a _ _ E w).1.
    - exists []. by rewrite app_nil_r.
    - exists []. by rewrite app_nil_r. }
  destruct Hgoal as (evs & Htr & Hsrc & Hfs & Hok). exists evs.
  split_and!; try done. by apply Hwrap.
Qed.

(** ** Traces of the sinks *)

Lemma commits_app tr1 tr2 : commits (tr1 ++ tr2) = commits tr1 ++ commits tr2.
Proof.
  induction tr1 as [|[c err|u t res|item] tr1 IH]; simpl; try done.
  destruct c; simpl; try done. by rewrite IH.
Qed.

Lemma closes_app tr1 tr2 : closes (tr1 ++ tr2) = closes tr1 ++ closes tr2.
Proof.
  induction tr1 as [|[c err|u t res|item] tr1 IH]; simpl; try done.
  destruct c; simpl; try done. by rewrite IH.
Qed.

Lemma opens_app tr1 tr2 : opens (tr1 ++ tr2) = opens tr1 ++ opens tr2.
Proof.
  induction tr1 as [|[c err|u t res|item] tr1 IH]; simpl; try done.
  destruct c; simpl; try done. by rewrite IH.
Qed.

Lemma source_events_silent evs :
  Forall source_event evs -> yields evs = [] /\ inserts evs = [].
Proof.
  induction 1 as [|[c err|u t res|item] evs Hx _ [IHy IHi]]; simpl; try done.
  by destruct c.
Qed.

Lemma source_loop_events path evs :
  Forall source_event evs -> Forall (loop_event path) evs.
Proof.
  intros Hsrc. eapply Forall_impl; [exact Hsrc|].
  intros [c err|u t res|item]; try done. by destruct c.
Qed.

Lemma loop_events_silent path evs :
  Forall (loop_event path) evs ->
  commits evs = [] /\ closes evs = [] /\ opens evs = [].
Proof.
  induction 1 as [|[c err|u t res|item] evs Hx _ (IHc & IHl & IHo)]; simpl;
    try done.
  by destruct c.
Qed.

(** Push the projections of a trace through its appends. *)
Ltac tr_norm :=
  repeat progress
    (simpl;
     rewrite ?commits_app, ?closes_app, ?opens_app, ?yields_app, ?inserts_app).

Section Sink.
Context {I : Type} `{Source I} (E : environment).
Context (path table_name indicator ingest_date : string) (batch_size : Z).

Let tup := insert_row_of E indicator ingest_date.

(** The loop of the warehouse sink: what it appends to the trace, how the
    batches handed to [executemany] relate to the rows pulled, and how
    large they are. *)
Lemma write_and_insert_loop_inv fuel : forall (rows : I) n batch w res w',
  write_and_insert_loop fuel path rows table_name indicator ingest_date
    batch_size n batch E w = (res, w') ->
  exists evs pend,
    trace w' = trace w ++ evs
    /\ Forall (loop_event path) evs
    /\ batch ++ map tup (yields evs) = concat (inserts evs) ++ pend
    /\ (1 <= batch_size -> len batch < batch_size ->
        Forall (fun b => len b = batch_size) (inserts evs))
    /\ match res with
       | Ok (n', batch') =>
           batch' = pend /\ n' = n + len (yields evs)
           /\ Forall ok_event evs
           /\ (exists evs0, evs = evs0 ++ [Pulled None])
           /\ (1 <= batch_size -> len batch < batch_size -> len batch' < batch_size)
       | _ => True
       end.
Proof.
  induction fuel as [|fuel IH]; intros rows n batch w res w' Hrun.
  { injection Hrun as <- <-. exists [], batch. rewrite !app_nil_r.
    by split_and!. }
  simpl in Hrun. bind_cases Hrun as Hpull Hrun.
  2,3: destruct (pull_inv _ _ _ _ _ Hpull) as (src & Hsrc & _ & Htr);
       destruct (source_events_silent _ Hsrc) as [Hy Hi];
       exists src, batch; rewrite Hy, Hi; simpl; rewrite !app_nil_r;
       split_and!; try done; by apply source_loop_events.
  destruct (pull_inv _ _ _ _ _ Hpull) as (src & Hsrc & _ & Htr).
  destruct (source_events_silent _ Hsrc) as [Hy Hi].
  pose proof (source_loop_events path _ Hsrc) as Hloop.
  destruct x as [[row|] rows']; destruct Htr as [Htr Hok].
  - (* a row: write it, add it to the batch, flush a full batch *)
    bind_cases Hrun as Hd Hrun; run_inv Hd.
    fold (tup row) in Hrun.
    bind_cases Hrun as Hw1 Hrun; run_inv Hw1.
    2: { eexists _, (batch ++ [tup row]).
         split; [simpl; rewrite Htr, <- !app_assoc; reflexivity|].
         rewrite !yields_app, !inserts_app, Hy, Hi. simpl.
         split_and!; try done.
         apply Forall_app. split; [done|]. by repeat constructor. }
    bind_cases Hrun as Hw2 Hrun; run_inv Hw2.
    2: { eexists _, (batch ++ [tup row]).
         split; [simpl; rewrite Htr, <- !app_assoc; reflexivity|].
         rewrite !yields_app, !inserts_app, Hy, Hi. simpl.
         split_and!; try done.
         apply Forall_app. split; [done|]. by repeat constructor. }
    assert (Hlen : 1 <= batch_size -> len batch < batch_size ->
                   len (batch ++ [tup row]) >= batch_size ->
                   len (batch ++ [tup row]) = batch_size).
    { intros. rewrite len_app in *. unfold len in *. simpl in *. lia. }
    bind_cases Hrun as Hflush Hrun.
    + (* the batch was flushed or kept; the loop goes on *)
      apply IH in Hrun as (evs2 & pend & Htr2 & Hloop2 & Hcontent & Hsize & Hres).
      case_decide as Hfull.
      * bind_cases Hflush as Hex Hret; run_inv Hex; run_inv Hret.
        eexists _, pend.
        split; [rewrite Htr2; simpl; rewrite Htr, <- !app_assoc; reflexivity|].
        rewrite !yields_app, !inserts_app, Hy, Hi. simpl.
        split_and!.
        -- apply Forall_app. split; [done|]. by repeat constructor.
        -- rewrite <- app_assoc, <- Hcontent. simpl. by rewrite <- app_assoc.
        -- intros H1 H2. constructor; [by apply Hlen|].
           apply Hsize; [done|]. unfold len. simpl. lia.
        -- destruct res as [[n' batch']|e|]; [|done..].
           destruct Hres as (-> & -> & Hok2 & (evs0 & ->) & Hsz).
           split_and!; try done.
           ++ unfold len. simpl. lia.
           ++ apply Forall_app. split; [done|]. by repeat constructor.
           ++ eexists. rewrite !app_comm_cons, !app_assoc. done.
           ++ intros H1 H2. apply Hsz; [done|]. unfold len. simpl. lia.
      * run_inv Hflush.
        eexists _, pend.
        split; [rewrite Htr2; simpl; rewrite Htr, <- !app_assoc; reflexivity|].
        rewrite !yields_app, !inserts_app, Hy, Hi. simpl.
        split_and!.
        -- apply Forall_app. split; [done|]. by repeat constructor.
        -- rewrite <- Hcontent. by rewrite <- app_assoc.
        -- intros H1 H2. apply Hsize; [done|]. lia.
        -- destruct res as [[n' batch']|e|]; [|done..].
           destruct Hres as (-> & -> & Hok2 & (evs0 & ->) & Hsz).
           split_and!; try done.
           ++ unfold len. simpl. lia.
           ++ apply Forall_app. split; [done|]. by repeat constructor.
           ++ eexists. rewrite !app_comm_cons, !app_assoc. done.
           ++ intros H1 H2. apply Hsz; [done|]. lia.
    + (* the insert failed *)
      case_decide as Hfull; [|by run_inv Hflush].
      bind_cases Hflush as Hex Hret; run_inv Hex; try (by run_inv Hret).
      eexists _, [].
      split; [simpl; rewrite Htr, <- !app_assoc; reflexivity|].
      rewrite !yields_app, !inserts_app, Hy, Hi. simpl. rewrite !app_nil_r.
      split_and!; try done.
      * apply Forall_app. split; [done|]. by repeat constructor.
      * intros H1 H2. constructor; [|done]. by apply Hlen.
    + case_decide as Hfull; [|by run_inv Hflush].
      bind_cases Hflush as Hex Hret; run_inv Hex; try (by run_inv Hret).
  - (* the end of the stream *)
    run_inv Hrun. exists (src ++ [Pulled None]), batch.
    rewrite yields_app, inserts_app, Hy, Hi. simpl. rewrite !app_nil_r.
    split_and!; try done.
    + apply Forall_app. split; [done|]. by repeat constructor.
    + unfold len. simpl. lia.
    + apply Forall_app. split; [done|]. by repeat constructor.
    + by exists src.
Qed.
End Sink.

Section SinkRun.
Context {I : Type} `{Source I} (E : environment).
Context (path table_name indicator ingest_date : string) (batch_size : Z).

Let tup := insert_row_of E indicator ingest_date.

Lemma batches_sized_full bs (batches : list (list insert_row)) pend :
  1 <= bs ->
  Forall (fun b => len b = bs) batches ->
  (pend = [] \/ 1 <= len pend <= bs) ->
  batches_sized bs (batches ++ match pend with [] => [] | _ => [pend] end).
Proof.
  intros Hbs Hfull Hpend i b Hi.
  apply lookup_app_Some in Hi as [Hi|[Hge Hi]].
  - pose proof (Forall_lookup_1 _ _ _ _ Hfull Hi) as Hb. simpl in Hb.
    split; [lia|done].
  - destruct pend as [|p pend]; [done|].
    destruct Hpend as [|Hpend]; [done|].
    apply list_lookup_singleton_Some in Hi as [Hi <-].
    split; [done|]. rewrite length_app. simpl. lia.
Qed.

(** The [with] block of the warehouse sink. *)
Lemma with_open_loop_inv fuel (rows : I) w res w' :
  with_open path
    (write_and_insert_loop fuel path rows table_name indicator ingest_date
       batch_size 0 []) E w = (res, w') ->
  exists evs pend,
    trace w' = trace w ++ evs
    /\ commits evs = [] /\ closes evs = []
    /\ map tup (yields evs) = concat (inserts evs) ++ pend
    /\ (1 <= batch_size -> Forall (fun b => len b = batch_size) (inserts evs))
    /\ match res with
       | Ok (n, batch) =>
           batch = pend /\ n = len (yields evs)
           /\ Forall ok_event evs /\ Pulled None ∈ evs
           /\ opens evs = [path]
           /\ (1 <= batch_size -> len batch < batch_size)
       | _ => True
       end.
Proof.
  unfold with_open. intros Hrun.
  bind_cases Hrun as Hopen Hrun; run_inv Hopen.
  2: { exists [Did (Open path) (Some x0)], []. by split_and!. }
  apply try_finally_inv in Hrun
    as [(w1 & Hloop & -> & ->)|(r & w1 & f & Hloop & Hr & Hfin & ->)];
    apply write_and_insert_loop_inv in Hloop
      as (evs & pend & Htr & Hev & Hcontent & Hsize & Hres);
    destruct (loop_events_silent _ _ Hev) as (Hco & Hcl & Hop);
    simpl in Htr, Hcontent.
  - exists (Did (Open path) None :: evs), pend.
    rewrite Htr, <- app_assoc. simpl. split_and!; try done.
    intros Hbs. apply Hsize; [done|]. unfold len. simpl. lia.
  - run_inv Hfin.
    + exists (Did (Open path) None :: evs ++ [Did (CloseFile path) None]), pend.
      simpl. rewrite Htr, <- !app_assoc. simpl.
      rewrite commits_app, closes_app, yields_app, inserts_app, opens_app.
      rewrite Hco, Hcl, Hop. simpl. rewrite !app_nil_r.
      split_and!; try done.
      * intros Hbs. apply Hsize; [done|]. unfold len. simpl. lia.
      * destruct r as [[n batch]|e|]; [|done..].
        destruct Hres as (-> & -> & Hok & (evs0 & ->) & Hsz).
        split_and!; try done.
        -- constructor; [done|]. apply Forall_app. split; [done|].
           by repeat constructor.
        -- apply elem_of_cons. right. apply elem_of_app. left.
           apply elem_of_app. right. by apply list_elem_of_singleton.
        -- intros Hbs. apply Hsz; [done|]. unfold len. simpl. lia.
    + exists (Did (Open path) None :: evs ++ [Did (CloseFile path) (Some x)]), pend.
      simpl. rewrite Htr, <- !app_assoc. simpl.
      rewrite commits_app, closes_app, yields_app, inserts_app.
      rewrite Hco, Hcl. simpl. rewrite !app_nil_r.
      split_and!; try done.
      intros Hbs. apply Hsize; [done|]. unfold len. simpl. lia.
Qed.

(** The [try] block: its events, and whether it reached the commit. *)
Lemma write_jsonl_and_snowflake_try_inv fuel (rows : I) w res w' :
  write_jsonl_and_snowflake_try fuel path rows table_name indicator
    ingest_date batch_size E w = (res, w') ->
  exists evs,
    trace w' = trace w ++ evs
    /\ closes evs = []
    /\ (exists pend, concat (inserts evs) ++ pend = map tup (yields evs))
    /\ (1 <= batch_size -> batches_sized batch_size (inserts evs))
    /\ ((exists evs0 err,
           evs = evs0 ++ [Did Commit err]
           /\ ready_to_commit E path indicator ingest_date evs0
           /\ res = match err with
                    | None => Ok (len (yields evs0))
                    | Some e => Raise e
                    end)
        \/ (commits evs = [] /\ forall n, res <> Ok n)).
Proof.
  unfold write_jsonl_and_snowflake_try, ensure_snowflake_table.
  intros Hrun.
  assert (Hnone : forall evs0 : list event,
            inserts evs0 = [] -> yields evs0 = [] -> closes evs0 = [] ->
            commits evs0 = [] -> forall r : result Z, (forall n, r <> Ok n) ->
            closes evs0 = []
            /\ (exists pend, concat (inserts evs0) ++ pend = map tup (yields evs0))
            /\ (1 <= batch_size -> batches_sized batch_size (inserts evs0))
            /\ ((exists evs1 err,
                   evs0 = evs1 ++ [Did Commit err]
                   /\ ready_to_commit E path indicator ingest_date evs1
                   /\ r = match err with
                           | None => Ok (len (yields evs1))
                           | Some e => Raise e
                           end)
                \/ (commits evs0 = [] /\ forall n, r <> Ok n))).
  { intros evs0 Hi Hy Hcl Hco r Hr. rewrite Hi, Hy. split; [done|].
    split; [by exists []|]. split; [by intros _ i b Hb|]. by right. }
  bind_cases Hrun as Hcur Hrun; run_inv Hcur.
  2: { eexists. split; [done|]. by apply Hnone. }
  bind_cases Hrun as Hcre Hrun; run_inv Hcre.
  2: { eexists. split; [simpl; rewrite <- app_assoc; done|]. by apply Hnone. }
  bind_cases Hrun as Hopen Hrun;
    apply with_open_loop_inv in Hopen
      as (evs & pend & Htr & Hco & Hcl & Hcontent & Hsize & Hres);
    simpl in Htr.
  2,3: exists (Did Cursor None :: Did (Execute (create_table_sql table_name)) None :: evs);
       rewrite Htr, <- !app_assoc; simpl; split; [done|];
       split; [done|]; split; [by exists pend|];
       split; [intros Hbs; rewrite <- (app_nil_r (inserts evs));
               by apply (batches_sized_full _ _ []); [|apply Hsize|left]|];
       by right.
  destruct x as [n batch].
  destruct Hres as (-> & -> & Hok & Hend & Hop & Hsz).
  set (pre := [Did Cursor None; Did (Execute (create_table_sql table_name)) None]).
  assert (Hready : forall flush : list event,
            Forall ok_event flush -> commits flush = [] -> closes flush = [] ->
            opens flush = [] -> yields flush = [] ->
            concat (inserts flush) = pend ->
            ready_to_commit E path indicator ingest_date (pre ++ evs ++ flush)).
  { intros flush Hfok Hfco Hfcl Hfop Hfy Hfi. unfold ready_to_commit.
    rewrite !commits_app, !closes_app, !opens_app, !yields_app, !inserts_app.
    rewrite Hco, Hcl, Hop, Hfco, Hfcl, Hfop, Hfy. simpl.
    rewrite concat_app, Hfi, app_nil_r.
    split_and!; try done.
    - repeat constructor. by apply Forall_app.
    - do 2 (apply elem_of_cons; right). apply elem_of_app. by left. }
  bind_cases Hrun to u w1 as Hflush Hrun.
  - (* the trailing batch, if any, was inserted *)
    assert (exists flush, trace w1 = trace x0 ++ flush
              /\ Forall ok_event flush /\ commits flush = []
              /\ closes flush = [] /\ opens flush = [] /\ yields flush = []
              /\ concat (inserts flush) = pend
              /\ inserts flush = match pend with [] => [] | _ => [pend] end)
      as (flush & Hftr & Hfok & Hfco & Hfcl & Hfop & Hfy & Hfi & Hfb).
    { destruct pend as [|p pend].
      - run_inv Hflush. exists []. rewrite app_nil_r. by split_and!.
      - run_inv Hflush. eexists [_]. split; [simpl; done|]. simpl.
        rewrite app_nil_r. by split_and!; [repeat constructor|..]. }
    assert (Hcontent' : concat (inserts evs ++ match pend with [] => [] | _ => [pend] end)
                        = map tup (yields evs)).
    { rewrite concat_app, Hcontent. f_equal.
      destruct pend; simpl; by rewrite ?app_nil_r. }
    assert (Hsized : 1 <= batch_size ->
              batches_sized batch_size
                (inserts evs ++ match pend with [] => [] | _ => [pend] end)).
    { intros Hbs. apply batches_sized_full; [done|by apply Hsize|].
      destruct pend as [|p pend]; [by left|right].
      specialize (Hsz Hbs). unfold len in *. simpl in *. lia. }
    bind_cases Hrun as Hcommit Hrun; run_inv Hcommit; try run_inv Hrun.
    all: eexists;
      (split; [simpl; rewrite Hftr, Htr, <- !app_assoc; simpl; reflexivity|]);
      tr_norm; rewrite Hcl, Hfcl, Hfy, Hfb;
      simpl; rewrite !app_nil_r;
      (split; [done|]); (split; [exists []; by rewrite app_nil_r|]);
      (split; [done|]); left; eexists (pre ++ evs ++ flush), _;
      (split; [by rewrite <- !app_assoc|]); (split; [by apply Hready|]);
      by rewrite ?yields_app, ?Hfy, ?app_nil_r.
  - (* the insert of the trailing batch failed *)
    destruct pend as [|p pend]; run_inv Hflush.
    eexists.
    split; [simpl; rewrite Htr, <- !app_assoc; simpl; reflexivity|].
    tr_norm. rewrite Hcl, Hco.
    simpl. rewrite !app_nil_r.
    split; [done|]. split.
    { exists []. by rewrite app_nil_r, concat_app, Hcontent; simpl; rewrite app_nil_r. }
    split.
    { intros Hbs. apply (batches_sized_full _ _ (p :: pend)); [done|by apply Hsize|].
      right. specialize (Hsz Hbs). unfold len in *. simpl in *. lia. }
    by right.
  - destruct pend as [|p pend]; run_inv Hflush.
Qed.
End SinkRun.

(** ** The warehouse configuration *)

Lemma foldl_read_required E items : forall config missing,
  exists config',
    foldl (read_required E) (config, missing) items
    = (config', missing ++ filter (fun k => if_str (getenv E k) = None) items.*1).
Proof.
  induction items as [|[env_key cfg_key] items IH]; intros config missing.
  - exists config. simpl. by rewrite app_nil_r.
  - simpl. rewrite filter_cons. simpl.
    destruct (if_str (getenv E env_key)) as [value|] eqn:Hv.
    + rewrite decide_False by done. apply IH.
    + rewrite decide_True by done.
      destruct (IH config (missing ++ [env_key])) as [config' ->].
      exists config'. by rewrite <- app_assoc.
Qed.

Lemma get_snowflake_config_missing E w :
  missing_vars E <> [] ->
  get_snowflake_config E w
  = (Raise (RuntimeError ("Missing Snowflake env vars: "
              +:+ String.concat ", " (missing_vars E))), w).
Proof.
  intros Hmiss. unfold get_snowflake_config.
  destruct (foldl_read_required E env_map ∅ []) as [config' ->].
  rewrite app_nil_l. fold (missing_vars E). by destruct (missing_vars E).
Qed.

Lemma get_snowflake_config_present E w :
  missing_vars E = [] -> exists config, get_snowflake_config E w = (Ok config, w).
Proof.
  intros Hmiss. unfold get_snowflake_config.
  destruct (foldl_read_required E env_map ∅ []) as [config' ->].
  rewrite app_nil_l. fold (missing_vars E). rewrite Hmiss. eauto.
Qed.

Lemma get_snowflake_config_inv E w res w' :
  get_snowflake_config E w = (res, w') ->
  w' = w
  /\ ((missing_vars E = [] /\ exists config, res = Ok config)
      \/ (missing_vars E <> [] /\ exists msg, res = Raise (RuntimeError msg))).
Proof.
  destruct (decide (missing_vars E = [])) as [Hm|Hm].
  - destruct (get_snowflake_config_present E w Hm) as [config ->].
    intros [= <- <-]. split; [done|]. left. eauto.
  - rewrite (get_snowflake_config_missing E w Hm).
    intros [= <- <-]. split; [done|]. right. eauto.
Qed.

Section SinkWhole.
Context {I : Type} `{Source I} (E : environment).
Context (path table_name indicator ingest_date : string) (batch_size : Z).

Let tup := insert_row_of E indicator ingest_date.

(** A whole run of the warehouse sink: without configuration nothing
    happens; without a connection only the failed connect; otherwise the
    [try] block runs and, unless it never ends, the connection is closed. *)
Lemma write_jsonl_and_snowflake_inv fuel (rows : I) w res w' :
  write_jsonl_and_snowflake fuel path rows table_name indicator ingest_date
    batch_size E w = (res, w') ->
  (missing_vars E <> [] /\ w' = w /\ exists msg, res = Raise (RuntimeError msg))
  \/ (exists config e,
        get_snowflake_config E w = (Ok config, w)
        /\ fault E (trace w) (Connect config) = Some e
        /\ res = Raise e /\ w' = push w [Did (Connect config) (Some e)])
  \/ (exists config r w1 evs tail,
        get_snowflake_config E w = (Ok config, w)
        /\ write_jsonl_and_snowflake_try fuel path rows table_name indicator
             ingest_date batch_size E
             (World (trace w ++ [Did (Connect config) None]) (files w)) = (r, w1)
        /\ trace w1 = (trace w ++ [Did (Connect config) None]) ++ evs
        /\ trace w' = trace w ++ Did (Connect config) None :: evs ++ tail
        /\ ((r = OutOfFuel /\ tail = [] /\ res = OutOfFuel)
            \/ (r <> OutOfFuel /\ exists released,
                  tail = [Did Close released]
                  /\ res = match released with None => r | Some e => Raise e end))).
Proof.
  unfold write_jsonl_and_snowflake, connect_to_snowflake. intros Hrun.
  destruct (decide (missing_vars E = [])) as [Hm|Hm].
  2: { left. unfold bind at 1 in Hrun.
       rewrite (get_snowflake_config_missing E w Hm) in Hrun.
       injection Hrun as <- <-. eauto. }
  right.
  destruct (get_snowflake_config_present E w Hm) as [config Hcfg].
  unfold bind at 1 in Hrun. rewrite Hcfg in Hrun.
  bind_cases Hrun to u w1 as Hconn Hrun.
  - unfold perform in Hconn.
    destruct (fault E (trace w) (Connect config)) as [e|] eqn:Hf; simplify_eq.
    right.
    apply try_finally_inv in Hrun
      as [(w2 & Htry & -> & ->)|(r & w2 & f & Htry & Hr & Hfin & ->)].
    + destruct (write_jsonl_and_snowflake_try_inv _ _ _ _ _ _ _ _ _ _ _ Htry)
        as (evs & Htr & _).
      eexists config, OutOfFuel, _, evs, [].
      simpl in Htr. rewrite Htr, <- !app_assoc, app_nil_r. simpl.
      split_and!; try done. by left.
    + destruct (write_jsonl_and_snowflake_try_inv _ _ _ _ _ _ _ _ _ _ _ Htry)
        as (evs & Htr & _).
      simpl in Htr.
      run_inv Hfin.
      * exists config, r, w2, evs, [Did Close None].
        simpl. rewrite Htr, <- !app_assoc. simpl.
        split_and!; try done. right. split; [done|]. by exists None.
      * eexists config, r, w2, evs, [Did Close (Some _)].
        simpl. rewrite Htr, <- !app_assoc. simpl.
        split_and!; try done. right. split; [done|]. by eexists (Some _).
  - left. unfold perform in Hconn.
    destruct (fault E (trace w) (Connect config)) as [e|] eqn:Hf; simplify_eq.
    by eexists config, _.
  - unfold perform in Hconn.
    by destruct (fault E (trace w) (Connect config)).
Qed.
End SinkWhole.

(** ** Claims about the warehouse sink *)



Section SinkClaims.
Context {I : Type} `{Source I} (E : environment).
Context (path table_name indicator ingest_date : string) (batch_size : Z).


(** C9. The dual sink reads its configuration and connects before it
    opens the output file: when a required variable is missing the run
    raises and changes nothing at all; when the connection fails the run
    raises after the failed connect alone and leaves every file as it was;
    and a run that opens a file has first connected with the configuration
    read from the environment. *)
Theorem configuration_and_connection_before_file
    (fuel : nat) (rows : I) (w : world) :
  let run := write_jsonl_and_snowflake fuel path rows table_name indicator
               ingest_date batch_size E w in
  (missing_vars E <> [] ->
     run = (Raise (RuntimeError ("Missing Snowflake env vars: "
                     +:+ String.concat ", " (missing_vars E))), w))
  /\ (forall config e,
        get_snowflake_config E w = (Ok config, w) ->
        fault E (trace w) (Connect config) = Some e ->
        run.1 = Raise e
        /\ trace run.2 = trace w ++ [Did (Connect config) (Some e)]
        /\ files run.2 = files w)
  /\ (forall evs, trace run.2 = trace w ++ evs -> opens evs <> [] ->
        exists config rest,
          get_snowflake_config E w = (Ok config, w)
          /\ evs = Did (Connect config) None :: rest).
Proof.
  intros run. unfold run. clear run. split_and!.
  - intros Hm. unfold write_jsonl_and_snowflake, bind.
    by rewrite (get_snowflake_config_missing E w Hm).
  - intros config e Hcfg Hf.
    unfold write_jsonl_and_snowflake, connect_to_snowflake, bind, perform.
    by rewrite Hcfg, Hf.
  - intros evs0 Htr0 Hop.
    destruct (write_jsonl_and_snowflake fuel path rows table_name indicator
                ingest_date batch_size E w) as [res w'] eqn:Hrun.
    simpl in Htr0.
    apply write_jsonl_and_snowflake_inv in Hrun
      as [(Hm & -> & msg & ->)|[(config & e & Hcfg & Hf & -> & ->)
         |(config & r & w1 & evs & tail & Hcfg & Htry & Htr1 & Htr & Hend)]].
    + rewrite <- (app_nil_r (trace w)) in Htr0 at 1.
      apply app_inv_head in Htr0 as <-. done.
    + simpl in Htr0. apply app_inv_head in Htr0 as <-. done.
    + rewrite Htr in Htr0. apply app_inv_head in Htr0 as <-. eauto.
Qed.

(** C10. Every tuple handed to [executemany] is built from a row pulled
    from the stream, in order, and its id column is [row.get("Id")]: the
    value under the exact key ["Id"] when the row has it, null otherwise,
    whatever the row holds under any other key. *)
Theorem correlation_id_from_exact_key
    (fuel : nat) (rows : I) (fs : gmap string string) :
  let run := write_jsonl_and_snowflake fuel path rows table_name indicator
               ingest_date batch_size E (World [] fs) in
  (exists pend,
     concat (inserts (trace run.2)) ++ pend
     = map (fun row => (indicator, ingest_date, dict_get row "Id", json_dumps E row))
         (yields (trace run.2)))
  /\ (forall n, run.1 = Ok n ->
        concat (inserts (trace run.2))
        = map (fun row => (indicator, ingest_date, dict_get row "Id", json_dumps E row))
            (yields (trace run.2)))
  /\ (forall (row : record) v, row !! "Id" = Some v -> dict_get row "Id" = v)
  /\ (forall row : record, row !! "Id" = None -> dict_get row "Id" = JNull)
  /\ (forall (row : record) k v, k <> "Id" ->
        dict_get (<[k := v]> row) "Id" = dict_get row "Id").
Proof.
  intros run. unfold run. clear run.
  assert (Hget : (forall (row : record) v, row !! "Id" = Some v -> dict_get row "Id" = v)
                 /\ (forall row : record, row !! "Id" = None -> dict_get row "Id" = JNull)
                 /\ (forall (row : record) k v, k <> "Id" ->
                       dict_get (<[k := v]> row) "Id" = dict_get row "Id")).
  { unfold dict_get. split_and!.
    - by intros row v ->.
    - by intros row ->.
    - intros row k v Hk. by rewrite lookup_insert_ne. }
  destruct (write_jsonl_and_snowflake fuel path rows table_name indicator
              ingest_date batch_size E (World [] fs)) as [res w'] eqn:Hrun.
  apply write_jsonl_and_snowflake_inv in Hrun
    as [(Hm & -> & msg & ->)|[(config & e & Hcfg & Hf & -> & ->)
       |(config & r & w1 & evs & tail & Hcfg & Htry & Htr1 & Htr & Hend)]];
    cbn [fst snd].
  - simpl. split; [by exists []|]. split; [done|]. exact Hget.
  - simpl. split; [by exists []|]. split; [done|]. exact Hget.
  - simpl in Htr.
    apply write_jsonl_and_snowflake_try_inv in Htry
      as (evs' & Htr' & Hcl & Hpend & _ & Hcommit).
    rewrite Htr1 in Htr'. apply app_inv_head in Htr' as <-.
    assert (Hi : inserts (trace w') = inserts evs).
    { rewrite Htr. tr_norm.
      destruct Hend as [(_ & -> & _)|(_ & released & -> & _)]; simpl;
        by rewrite app_nil_r. }
    assert (Hy : yields (trace w') = yields evs).
    { rewrite Htr. tr_norm.
      destruct Hend as [(_ & -> & _)|(_ & released & -> & _)]; simpl;
        by rewrite app_nil_r. }
    rewrite Hi, Hy. split; [exact Hpend|]. split; [|exact Hget].
    intros n Hn.
    destruct Hcommit as [(evs0 & err & -> & Hready & ->)|[Hco Hnot]].
    + destruct Hready as (_ & _ & _ & _ & Hins & _).
      tr_norm. rewrite !app_nil_r. exact Hins.
    + destruct Hend as [(_ & _ & ->)|(_ & released & _ & ->)]; [done|].
      destruct released; [done|]. by apply Hnot in Hn.
Qed.
End SinkClaims.

(** ** Batches *)

Lemma batches_sized_tail bs b (l : list (list insert_row)) :
  batches_sized bs (b :: l) -> batches_sized bs l.
Proof.
  intros Hs i x Hi. destruct (Hs (S i) x Hi) as [Hb Hfull].
  split; [done|]. intros Hlt. apply Hfull. simpl. lia.
Qed.

(** [ceil(N / batch_size)] batches for [N] rows. *)
Lemma batches_sized_count bs (l : list (list insert_row)) :
  1 <= bs -> batches_sized bs l ->
  len l = (len (concat l) + bs - 1) / bs.
Proof.
  intros Hbs. induction l as [|b l IH]; intros Hs.
  - unfold len. simpl. symmetry. apply Z.div_small. lia.
  - specialize (IH (batches_sized_tail _ _ _ Hs)).
    destruct (Hs 0%nat b eq_refl) as [Hb Hfull].
    simpl. rewrite len_app.
    destruct l as [|b' l].
    + unfold len at 1 3. simpl.
      apply Z.div_unique with (r := len b - 1); lia.
    + rewrite Hfull by (simpl; lia).
      replace (bs + len (concat (b' :: l)) + bs - 1)
        with (1 * bs + (len (concat (b' :: l)) + bs - 1)) by lia.
      rewrite Z.div_add_l by lia. rewrite <- IH.
      unfold len. simpl. lia.
Qed.

Section SinkReturns.
Context {I : Type} `{Source I} (E : environment).
Context (path table_name indicator ingest_date : string) (batch_size : Z).

(** A run of the dual sink that returns has handed every row pulled to
    [executemany], in batches of the configured size. *)
Lemma write_jsonl_and_snowflake_returns fuel (rows : I) fs n w' :
  write_jsonl_and_snowflake fuel path rows table_name indicator ingest_date
    batch_size E (World [] fs) = (Ok n, w') ->
  n = len (yields (trace w'))
  /\ concat (inserts (trace w'))
     = map (insert_row_of E indicator ingest_date) (yields (trace w'))
  /\ (1 <= batch_size -> batches_sized batch_size (inserts (trace w'))).
Proof.
  intros Hrun.
  apply write_jsonl_and_snowflake_inv in Hrun
    as [(Hm & _ & msg & ?)|[(config & e & Hcfg & Hf & ? & _)
       |(config & r & w1 & evs & tail & Hcfg & Htry & Htr1 & Htr & Hend)]];
    [done|done|].
  simpl in Htr.
  apply write_jsonl_and_snowflake_try_inv in Htry
    as (evs' & Htr' & Hcl & _ & Hsized & Hcommit).
  rewrite Htr1 in Htr'. apply app_inv_head in Htr' as <-.
  destruct Hend as [(_ & _ & ?)|(_ & released & -> & Hres)]; [done|].
  destruct released; [done|]. subst r.
  destruct Hcommit as [(evs0 & err & -> & Hready & Hok)|[_ Hnot]].
  2: { by specialize (Hnot n). }
  destruct err; [done|]. injection Hok as ->.
  destruct Hready as (_ & _ & _ & _ & Hins & _).
  rewrite Htr. tr_norm. rewrite !app_nil_r.
  split_and!; try done.
  intros Hbs. specialize (Hsized Hbs). revert Hsized. tr_norm.
  by rewrite !app_nil_r.
Qed.
End SinkReturns.

(** ** The dual sink over a list of rows, when nothing fails *)

Section ListStream.
Context (E : environment) (quiet : never_fails E).
Context (path table_name indicator ingest_date : string) (batch_size : Z).

Lemma perform_ok c w :
  perform c E w = (Ok tt, World (trace w ++ [Did c None]) (effect c (files w))).
Proof. unfold perform. by rewrite quiet. Qed.

Lemma write_and_insert_loop_list (rows : list record) : forall fuel n batch w,
  (fuel > length rows)%nat ->
  exists n' batch' w' evs,
    write_and_insert_loop fuel path rows table_name indicator ingest_date
      batch_size n batch E w = (Ok (n', batch'), w')
    /\ trace w' = trace w ++ evs /\ yields evs = rows.
Proof.
  induction rows as [|row rows IH]; intros fuel n batch w Hfuel;
    (destruct fuel as [|fuel]; [simpl in Hfuel; lia|]).
  - eexists n, batch, _, [Pulled None]. split; [reflexivity|]. done.
  - simpl. unfold bind at 1. unfold pull at 1. unfold bind at 1. simpl.
    unfold bind at 1. unfold dumps at 1.
    unfold bind at 1. rewrite perform_ok.
    unfold bind at 1. rewrite perform_ok.
    unfold bind at 1.
    set (batch1 := batch ++ [(indicator, ingest_date, dict_get row "Id", json_dumps E row)]).
    destruct (decide (len batch1 >= batch_size)) as [Hfull|Hfull].
    + unfold bind at 1. rewrite perform_ok. simpl.
      match goal with
      | |- context [write_and_insert_loop fuel path rows _ _ _ _ ?n1 ?b1 E ?w1] =>
          destruct (IH fuel n1 b1 w1 ltac:(simpl in Hfuel; lia))
            as (n' & batch' & w' & evs & -> & Htr & Hy)
      end.
      eexists n', batch', w', _. split; [reflexivity|].
      rewrite Htr. simpl. rewrite <- !app_assoc. split; [reflexivity|].
      tr_norm. by rewrite Hy.
    + simpl.
      match goal with
      | |- context [write_and_insert_loop fuel path rows _ _ _ _ ?n1 ?b1 E ?w1] =>
          destruct (IH fuel n1 b1 w1 ltac:(simpl in Hfuel; lia))
            as (n' & batch' & w' & evs & -> & Htr & Hy)
      end.
      eexists n', batch', w', _. split; [reflexivity|].
      rewrite Htr. simpl. rewrite <- !app_assoc. split; [reflexivity|].
      tr_norm. by rewrite Hy.
Qed.

Lemma write_jsonl_and_snowflake_list fuel (rows : list record) fs :
  missing_vars E = [] -> (fuel > length rows)%nat ->
  exists n w',
    write_jsonl_and_snowflake fuel path rows table_name indicator ingest_date
      batch_size E (World [] fs) = (Ok n, w')
    /\ yields (trace w') = rows.
Proof.
  intros Hm Hfuel.
  destruct (get_snowflake_config_present E (World [] fs) Hm) as [config Hcfg].
  unfold write_jsonl_and_snowflake, connect_to_snowflake.
  unfold bind at 1. rewrite Hcfg.
  unfold bind at 1. rewrite perform_ok.
  unfold try_finally, write_jsonl_and_snowflake_try, ensure_snowflake_table.
  unfold bind at 1. rewrite perform_ok.
  unfold bind at 1. rewrite perform_ok.
  unfold bind at 1. unfold with_open. unfold bind at 1. rewrite perform_ok.
  unfold try_finally.
  match goal with
  | |- context [write_and_insert_loop fuel path rows _ _ _ _ ?n1 ?b1 E ?w1] =>
      destruct (write_and_insert_loop_list rows fuel n1 b1 w1 Hfuel)
        as (n' & batch' & w' & evs & -> & Htr & Hy)
  end.
  rewrite perform_ok.
  destruct batch' as [|b batch'].
  - unfold bind at 1. unfold ret at 1.
    unfold bind at 1. rewrite perform_ok. unfold ret at 1.
    rewrite perform_ok. eexists _, _. split; [reflexivity|].
    simpl. rewrite Htr. tr_norm. by rewrite Hy, !app_nil_r.
  - unfold bind at 1. rewrite perform_ok.
    unfold bind at 1. rewrite perform_ok. unfold ret at 1.
    rewrite perform_ok. eexists _, _. split; [reflexivity|].
    simpl. rewrite Htr. tr_norm. by rewrite Hy, !app_nil_r.
Qed.

(** C2. For a batch size of at least 1 and a stream of N rows, a run in
    which nothing fails returns N and calls [executemany] exactly
    [ceil(N / batch_size)] times, with the rows in order: no batch is empty,
    none exceeds the batch size, and all but the last are full. *)
Theorem insert_calls_are_full_batches
    (fuel : nat) (rows : list record) (fs : gmap string string) :
  1 <= batch_size -> missing_vars E = [] -> (fuel > length rows)%nat ->
  let run := write_jsonl_and_snowflake fuel path rows table_name indicator
               ingest_date batch_size E (World [] fs) in
  let batches := inserts (trace run.2) in
  run.1 = Ok (len rows)
  /\ concat batches = map (insert_row_of E indicator ingest_date) rows
  /\ len batches = (len rows + batch_size - 1) / batch_size
  /\ (forall i b, batches !! i = Some b ->
        1 <= len b <= batch_size
        /\ ((S i < length batches)%nat -> len b = batch_size)).
Proof.
  intros Hbs Hm Hfuel run batches. unfold batches, run. clear batches run.
  destruct (write_jsonl_and_snowflake_list fuel rows fs Hm Hfuel)
    as (n & w' & Hrun & Hy).
  rewrite Hrun. simpl.
  apply write_jsonl_and_snowflake_returns in Hrun as (-> & Hins & Hsized).
  specialize (Hsized Hbs). rewrite Hy in *.
  split_and!; try done.
  rewrite (batches_sized_count batch_size _ Hbs Hsized), Hins.
  unfold len. by rewrite length_map.
Qed.
End ListStream.

(** ** The raw sink when the second page fails *)




Section SecondPageFails.
Context (a : iter_pages_args) (E : environment) (path : string).
Context (resp1 resp2 : response) (rows1 : list record).
Hypothesis quiet : never_fails E.
Hypothesis first_ok : answers E 0 (inr resp1).
Hypothesis first_status : status_code resp1 = 200.
Hypothesis first_rows : json_body resp1 = Payload (Some rows1).
Hypothesis second_fails : answers E 1 (inr resp2).
Hypothesis second_status : status_code resp2 <> 200.
Hypothesis under_cap : forall cap, max_rows a = Some cap -> len rows1 < cap.




End SecondPageFails.

(** ** The scenarios of the specification, run *)

(** Scenario A: pages of 2, 2 and 1 rows, then an empty one; page size 2,
    no cap: four requests at cursors 0, 2, 4, 5 and five lines written. *)
Example scenario_A :
  let run := write_jsonl 9 "out" (iter_pages (args0 2 None)) env_script w0 in
  run.1 = Ok 5
  /\ map (fun x => url_skip x.1) (fetch_log (trace run.2)) = [0; 2; 4; 5]
  /\ files run.2 !! "out" = Some (jsonl env_script five).
Proof. by vm_compute. Qed.

(** Scenario B: the same data with a cap of 3: three lines, and the second
    request asks for 1 row. *)
Example scenario_B :
  let run := write_jsonl 9 "out" (iter_pages (args0 2 (Some 3))) env_five w0 in
  run.1 = Ok 3
  /\ map (fun x => (url_skip x.1, url_top x.1)) (fetch_log (trace run.2))
     = [(0, 2); (2, 1)]
  /\ files run.2 !! "out" = Some (jsonl env_five (take 3 five)).
Proof. by vm_compute. Qed.

(** Scenario C: warehouse mode, batch size 2, five rows: inserts of 2, 2
    and 1 rows, and all five lines in the file. *)
Example scenario_C :
  let run := write_jsonl_and_snowflake 9 "out" five "t" "X" "2026-01-01" 2
               env_warehouse w0 in
  run.1 = Ok 5
  /\ map length (inserts (trace run.2)) = [2; 2; 1]%nat
  /\ files run.2 !! "out" = Some (jsonl env_warehouse five).
Proof. by vm_compute. Qed.

(** ** The claims at concrete inputs *)

Lemma insert_calls_are_full_batches_witness :
  let run := write_jsonl_and_snowflake 6 "out" five "t" "X" "2026-01-01" 2
               env_warehouse w0 in
  run.1 = Ok 5 /\ len (inserts (trace run.2)) = 3.
Proof.
  destruct (insert_calls_are_full_batches env_warehouse
              (fun h c => eq_refl) "out" "t" "X" "2026-01-01" 2 6 five ∅
              ltac:(lia) eq_refl ltac:(simpl; lia))
    as (Hret & _ & Hcount & _).
  split; [exact Hret|exact Hcount].
Defined.



Lemma configuration_and_connection_before_file_witness :
  write_jsonl_and_snowflake 6 "out" five "t" "X" "2026-01-01" 2 env_five w0
  = (Raise (RuntimeError ("Missing Snowflake env vars: "
              +:+ String.concat ", " (missing_vars env_five))), w0).
Proof.
  apply (proj1 (configuration_and_connection_before_file env_five
                  "out" "t" "X" "2026-01-01" 2 6 five w0)).
  done.
Defined.

Lemma correlation_id_from_exact_key_witness :
  dict_get ({[ "id" := JInt 7 ]} : record) "Id" = JNull
  /\ dict_get ({[ "Id" := JInt 7 ]} : record) "Id" = JInt 7.
Proof.
  destruct (correlation_id_from_exact_key env_warehouse
              "out" "t" "X" "2026-01-01" 2 6 five ∅)
    as (_ & _ & Hsome & Hnone & _).
  split; [by apply Hnone|by apply Hsome].
Defined.
